(** * Gmail Search CLI: the interval-coverage cache, the batch fetcher and
    the reconciling search service of [gmail_search.py], embedded in Rocq.

    Python values are modelled as follows.
    - A [pendulum.DateTime] is a record of its civil fields and its UTC
      offset; Python compares two of them by the instant they denote
      ([instant]), SQLite compares the ISO-8601 text written by
      [isoformat] byte by byte.
    - A raised exception is the [Raise] outcome of a computation.
    - The SQLite file, the IMAP connection pool, the clock and the network
      are the fields of an explicit [World], threaded by a state and
      exception monad. *)

From Stdlib Require Import ZArith List Bool String Ascii Lia Permutation Sorted.
Import ListNotations.
Open Scope string_scope.
Open Scope list_scope.
Open Scope Z_scope.

(* ================================================================= *)
(** ** Exceptions *)

Inductive exn : Type :=
| ValueError (msg : string)
| RuntimeError (msg : string)
| OperationalError (msg : string)
| ReError
| TypeError
| IndexError
| EOFError
| IMAPError.

Inductive outcome (A : Type) : Type :=
| Return (a : A)
| Raise (e : exn).
Arguments Return {A} a.
Arguments Raise {A} e.

Definition is_return {A} (o : outcome A) : bool :=
  match o with Return _ => true | Raise _ => false end.

(* ================================================================= *)
(** ** Timestamps *)

(** A timezone-aware datetime: civil fields in local time, and the offset
    of that local time from UTC in minutes. *)
Record DateTime : Type := mkDateTime {
  year : Z; month : Z; day : Z;
  hour : Z; minute : Z; second : Z; microsecond : Z;
  utcoffset : Z
}.

(** Days since 1970-01-01 of a proleptic Gregorian date. *)
Definition days_from_civil (y m d : Z) : Z :=
  let y' := if m <=? 2 then y - 1 else y in
  let era := y' / 400 in
  let yoe := y' - era * 400 in
  let mp := if m >? 2 then m - 3 else m + 9 in
  let doy := (153 * mp + 2) / 5 + d - 1 in
  let doe := yoe * 365 + yoe / 4 - yoe / 100 + doy in
  era * 146097 + doe - 719468.

Definition civil_from_days (z0 : Z) : Z * Z * Z :=
  let z := z0 + 719468 in
  let era := z / 146097 in
  let doe := z - era * 146097 in
  let yoe := (doe - doe / 1460 + doe / 36524 - doe / 146096) / 365 in
  let doy := doe - (365 * yoe + yoe / 4 - yoe / 100) in
  let mp := (5 * doy + 2) / 153 in
  let d := doy - (153 * mp + 2) / 5 + 1 in
  let m := if mp <? 10 then mp + 3 else mp - 9 in
  let y := yoe + era * 400 + (if m <=? 2 then 1 else 0) in
  (y, m, d).

(** The instant a datetime denotes, in microseconds since the epoch.
    Every Python comparison of two aware datetimes goes through it. *)
Definition instant (t : DateTime) : Z :=
  ((days_from_civil (year t) (month t) (day t) * 86400
    + hour t * 3600 + minute t * 60 + second t)
   - utcoffset t * 60) * 1000000 + microsecond t.

Arguments instant : simpl never.

Definition dt_lt (a b : DateTime) : bool := instant a <? instant b.
Definition dt_le (a b : DateTime) : bool := instant a <=? instant b.
Definition dt_ge (a b : DateTime) : bool := instant b <=? instant a.
Definition dt_gt (a b : DateTime) : bool := instant b <? instant a.
Definition dt_eqb (a b : DateTime) : bool := instant a =? instant b.

(** Python's [min(a, b)] and [max(a, b)]: the first argument wins a tie. *)
Definition dt_min (a b : DateTime) : DateTime := if dt_lt b a then b else a.
Definition dt_max (a b : DateTime) : DateTime := if dt_gt b a then b else a.

(** *** ISO-8601 text *)

Definition digit (n : Z) : ascii := ascii_of_nat (48 + Z.to_nat (n mod 10)).

Fixpoint pad (width : nat) (n : Z) : string :=
  match width with
  | O => EmptyString
  | S w => (pad w (n / 10) ++ String (digit n) EmptyString)%string
  end.

(** [datetime.isoformat()]: the fraction is printed only when it is not
    zero, the offset always. *)
Definition isoformat (t : DateTime) : string :=
  (pad 4 (year t) ++ "-" ++ pad 2 (month t) ++ "-" ++ pad 2 (day t) ++ "T"
   ++ pad 2 (hour t) ++ ":" ++ pad 2 (minute t) ++ ":" ++ pad 2 (second t)
   ++ (if Z.eqb (microsecond t) 0 then EmptyString else "." ++ pad 6 (microsecond t))
   ++ (if Z.ltb (utcoffset t) 0 then "-" else "+")
   ++ pad 2 (Z.div (Z.abs (utcoffset t)) 60) ++ ":"
   ++ pad 2 (Z.modulo (Z.abs (utcoffset t)) 60))%string.

Arguments isoformat : simpl never.

(** Comparison of two TEXT values under SQLite's BINARY collation. *)
Definition text_lt (a b : string) : bool := String.ltb a b.
Definition text_le (a b : string) : bool := String.leb a b.

(** *** pendulum arithmetic *)

Definition is_leap (y : Z) : bool :=
  ((y mod 4 =? 0) && negb (y mod 100 =? 0)) || (y mod 400 =? 0).

Definition days_in_month (y m : Z) : Z :=
  if m =? 2 then (if is_leap y then 29 else 28)
  else if (m =? 4) || (m =? 6) || (m =? 9) || (m =? 11) then 30 else 31.

(** [t.add(days=n)]; [t.subtract(days=n)] is [add_days t (- n)]. *)
Definition add_days (t : DateTime) (n : Z) : DateTime :=
  let '(y, m, d) := civil_from_days (days_from_civil (year t) (month t) (day t) + n) in
  mkDateTime y m d (hour t) (minute t) (second t) (microsecond t) (utcoffset t).

(** [t.subtract(years=n)]: the day is clamped to the length of the month. *)
Definition subtract_years (t : DateTime) (n : Z) : DateTime :=
  let y := year t - n in
  mkDateTime y (month t) (Z.min (day t) (days_in_month y (month t)))
             (hour t) (minute t) (second t) (microsecond t) (utcoffset t).

(** A UTC datetime, for examples. *)
Definition utc (y m d h mi s : Z) : DateTime := mkDateTime y m d h mi s 0 0.

(* ================================================================= *)
(** ** DateRange *)

Record DateRange : Type := mkDateRange { start : DateTime; end_ : DateTime }.

Definition overlaps (self other : DateRange) : bool :=
  dt_le (start self) (end_ other) && dt_ge (end_ self) (start other).

Definition merge (self other : DateRange) : outcome DateRange :=
  if negb (overlaps self other) then
    Raise (ValueError "Cannot merge non-overlapping ranges")
  else
    Return (mkDateRange (dt_min (start self) (start other))
                        (dt_max (end_ self) (end_ other))).

(** Python's [==] on two [DateRange]s: field-wise datetime equality. *)
Definition dr_eqb (a b : DateRange) : bool :=
  dt_eqb (start a) (start b) && dt_eqb (end_ a) (end_ b).

(** The data-model invariant [start <= end]. *)
Definition wf_range (r : DateRange) : Prop :=
  instant (start r) <= instant (end_ r).

(** An instant lies in a (closed) range. *)
Definition covers (r : DateRange) (t : Z) : Prop :=
  instant (start r) <= t <= instant (end_ r).

Definition covered (l : list DateRange) (t : Z) : Prop :=
  exists r, In r l /\ covers r t.


(* ================================================================= *)
(** ** Python truthiness *)

Class Truthy (A : Type) : Type := truthy : A -> bool.

#[export] Instance truthy_str : Truthy string :=
  fun s => negb (String.eqb s EmptyString).
(** A datetime object defines neither [__bool__] nor [__len__]. *)
#[export] Instance truthy_datetime : Truthy DateTime := fun _ => true.
#[export] Instance truthy_option {A} `{Truthy A} : Truthy (option A) :=
  fun o => match o with Some a => truthy a | None => false end.
#[export] Instance truthy_list {A} : Truthy (list A) :=
  fun l => match l with [] => false | _ :: _ => true end.

(** [all(xs)] on a list of already evaluated truth values. *)
Definition all (xs : list bool) : bool := forallb (fun b => b) xs.

(* ================================================================= *)
(** ** Sorting as Python and SQLite do it: stable *)

Section StableSort.
Context {A : Type} (le : A -> A -> bool).

Fixpoint insert_sorted (x : A) (l : list A) : list A :=
  match l with
  | [] => [x]
  | y :: l' => if le x y then x :: y :: l' else y :: insert_sorted x l'
  end.

(** Elements with equal keys keep their relative order. *)
Definition stable_sort (l : list A) : list A :=
  fold_right insert_sorted [] l.
End StableSort.

(* ================================================================= *)
(** ** The cache database *)

Record EmailMetadata : Type := mkEmail {
  message_id : string;
  from_address : string;
  subject : string;
  date : DateTime;
  gmail_link : option string
}.

(** A row of table [emails]; [date] and [cached_at] are TEXT columns that
    hold [isoformat] of the value kept here, and [pendulum.parse] of that
    text gives the value back. *)
Record EmailRow : Type := mkRow {
  row_email : EmailMetadata;
  cached_at : DateTime
}.

(** Both tables in rowid order. The AUTOINCREMENT [id] of [date_ranges] is
    never read by the program and is left out. *)
Record Database : Type := mkDatabase {
  emails : list EmailRow;
  date_ranges : list DateRange
}.

Definition empty_db : Database := mkDatabase [] [].

(** [SELECT start_date, end_date FROM date_ranges ORDER BY start_date]:
    the order is the one of the stored text. *)
Definition get_cached_ranges (self : Database) : list DateRange :=
  stable_sort (fun a b => text_le (isoformat (start a)) (isoformat (start b)))
              (date_ranges self).

(** One turn of the loop of [find_missing_ranges], on the pair
    [(missing_ranges, current)]. *)
Definition gap_step (st : list DateRange * DateTime) (cached_range : DateRange)
  : list DateRange * DateTime :=
  let '(missing_ranges, current) := st in
  let missing_ranges :=
    if dt_lt current (start cached_range)
    then missing_ranges ++ [mkDateRange current (start cached_range)]
    else missing_ranges in
  (missing_ranges, dt_max current (end_ cached_range)).

Definition find_missing_ranges (self : Database) (target_range : DateRange)
  : list DateRange :=
  let cached_ranges := get_cached_ranges self in
  if negb (truthy cached_ranges) then [target_range]
  else
    let '(missing_ranges, current) :=
      fold_left gap_step cached_ranges ([], start target_range) in
    if dt_lt current (end_ target_range)
    then missing_ranges ++ [mkDateRange current (end_ target_range)]
    else missing_ranges.

(** One turn of the merging loop of [_update_date_ranges], on the pair
    [(merged, current)]. *)
Definition merge_step (st : outcome (list DateRange * DateRange))
  (next_range : DateRange) : outcome (list DateRange * DateRange) :=
  match st with
  | Raise e => Raise e
  | Return (merged, current) =>
      if overlaps current next_range then
        match merge current next_range with
        | Return m => Return (merged, m)
        | Raise e => Raise e
        end
      else Return (merged ++ [current], next_range)
  end.

(** The body of [_update_date_ranges] between the read and the write:
    append, sort by start, merge. *)
Definition merged_ranges (ranges : list DateRange) (new_range : DateRange)
  : outcome (list DateRange) :=
  let ranges := ranges ++ [new_range] in
  let ranges := stable_sort (fun a b => dt_le (start a) (start b)) ranges in
  match ranges with
  | [] => Return []
  | r0 :: rest =>
      match fold_left merge_step rest (Return ([], r0)) with
      | Return (merged, current) => Return (merged ++ [current])
      | Raise e => Raise e
      end
  end.

(** [INSERT OR REPLACE INTO emails]: a row with the same primary key is
    deleted and the new row gets a fresh rowid. *)
Definition upsert_row (rows : list EmailRow) (r : EmailRow) : list EmailRow :=
  filter (fun x => negb (String.eqb (message_id (row_email x))
                                    (message_id (row_email r)))) rows ++ [r].

Definition executemany_upsert (rows : list EmailRow) (new_rows : list EmailRow)
  : list EmailRow :=
  fold_left upsert_row new_rows rows.

(** The retention pass of [cleanup_old_data] for a given cutoff: three
    statements, each comparing stored text with [cutoff.isoformat()]. *)
Definition delete_old_emails (cutoff : DateTime) (rows : list EmailRow)
  : list EmailRow :=
  filter (fun r => negb (text_lt (isoformat (date (row_email r)))
                                 (isoformat cutoff))) rows.

Definition raise_starts (cutoff : DateTime) (rs : list DateRange)
  : list DateRange :=
  map (fun r => if text_lt (isoformat (start r)) (isoformat cutoff)
                then mkDateRange cutoff (end_ r) else r) rs.

Definition delete_outdated_ranges (cutoff : DateTime) (rs : list DateRange)
  : list DateRange :=
  filter (fun r => negb (text_lt (isoformat (end_ r)) (isoformat cutoff))) rs.

Definition trim (cutoff : DateTime) (conn : Database) : Database :=
  let conn := mkDatabase (delete_old_emails cutoff (emails conn))
                         (date_ranges conn) in
  let conn := mkDatabase (emails conn) (raise_starts cutoff (date_ranges conn)) in
  mkDatabase (emails conn) (delete_outdated_ranges cutoff (date_ranges conn)).

(* ================================================================= *)
(** ** Library functions the program calls *)

(** A [datetime.datetime] of the standard library, which may be naive. *)
Record datetime : Type := mk_datetime {
  dt_year : Z; dt_month : Z; dt_day : Z;
  dt_hour : Z; dt_minute : Z; dt_second : Z; dt_microsecond : Z;
  tzinfo : option Z
}.

(** The functions of [re], [email] and the builtins whose results the
    program depends on. [None] stands for a raised exception. *)
Class Runtime : Type := {
  regex : Type;
  (** [re.compile(pattern)]; [None] is [re.error]. *)
  re_compile : string -> option regex;
  (** [bool(compiled.search(text))]: an unanchored match anywhere in [text]. *)
  regex_search : regex -> string -> bool;
  (** The first chunk of [email.header.decode_header(h)], bytes decoded
      with its charset. *)
  decode_header_first : string -> option string;
  (** [email.utils.parsedate_to_datetime]. *)
  parsedate_to_datetime : string -> option datetime;
  (** [int(s)]; [None] is [ValueError]. *)
  py_int : string -> option Z
}.

(** [re.search(pattern, text)] compiles first. *)
Definition re_search `{Runtime} (pattern text : string) : outcome bool :=
  match re_compile pattern with
  | None => Raise ReError
  | Some r => Return (regex_search r text)
  end.

(** *** Strings *)

Definition lower_ascii (c : ascii) : ascii :=
  let n := nat_of_ascii c in
  if (Nat.leb 65 n && Nat.leb n 90)%bool then ascii_of_nat (n + 32) else c.

Fixpoint lower (s : string) : string :=
  match s with
  | EmptyString => EmptyString
  | String c s' => String (lower_ascii c) (lower s')
  end.

Definition is_space (c : ascii) : bool :=
  let n := nat_of_ascii c in
  ((Nat.leb 9 n && Nat.leb n 13) || (Nat.leb 28 n && Nat.leb n 32))%bool.

Fixpoint lstrip (s : string) : string :=
  match s with
  | EmptyString => EmptyString
  | String c s' => if is_space c then lstrip s' else s
  end.

Fixpoint rstrip (s : string) : string :=
  match s with
  | EmptyString => EmptyString
  | String c s' =>
      match rstrip s' with
      | EmptyString => if is_space c then EmptyString else String c EmptyString
      | r => String c r
      end
  end.

Definition strip (s : string) : string := rstrip (lstrip s).

Definition hex_digit (n : nat) : ascii :=
  if Nat.ltb n 10 then ascii_of_nat (48 + n) else ascii_of_nat (55 + n).

Definition is_unreserved (c : ascii) : bool :=
  let n := nat_of_ascii c in
  ((Nat.leb 65 n && Nat.leb n 90) || (Nat.leb 97 n && Nat.leb n 122)
   || (Nat.leb 48 n && Nat.leb n 57)
   || Nat.eqb n 95 || Nat.eqb n 46 || Nat.eqb n 45 || Nat.eqb n 126
   || Nat.eqb n 47)%bool.

(** [urllib.parse.quote] with its default [safe="/"], on the bytes of the
    string. *)
Fixpoint quote (s : string) : string :=
  match s with
  | EmptyString => EmptyString
  | String c s' =>
      if is_unreserved c then String c (quote s')
      else String "%"%char
             (String (hex_digit (Nat.div (nat_of_ascii c) 16))
                (String (hex_digit (Nat.modulo (nat_of_ascii c) 16)) (quote s')))
  end.

(* ================================================================= *)
(** ** Searching the cache *)

(** The function registered as [REGEXP]; an exception inside a
    user-defined function aborts the statement. *)
Definition REGEXP `{Runtime} (pattern text : string) : outcome bool :=
  match re_search pattern text with
  | Return b => Return b
  | Raise _ => Raise (OperationalError "user-defined function raised exception")
  end.

(** The WHERE clause on one row:
    [from_address REGEXP ? AND date >= ? AND date <= ?]. The two date
    tests compare TEXT with TEXT. Rows are visited in rowid order and the
    conjuncts in the order written; another query plan changes the order
    of the rows returned and, for a pattern that does not compile, which
    row raises, nothing else. *)
Definition where_clause `{Runtime} (pattern : string)
  (date_range : option DateRange) (r : EmailRow) : outcome bool :=
  match REGEXP pattern (from_address (row_email r)) with
  | Raise e => Raise e
  | Return false => Return false
  | Return true =>
      match date_range with
      | None => Return true
      | Some dr =>
          Return (text_le (isoformat (start dr)) (isoformat (date (row_email r)))
                  && text_le (isoformat (date (row_email r))) (isoformat (end_ dr)))
      end
  end.

Fixpoint select_where {A} (p : A -> outcome bool) (rows : list A)
  : outcome (list A) :=
  match rows with
  | [] => Return []
  | r :: rest =>
      match p r with
      | Raise e => Raise e
      | Return b =>
          match select_where p rest with
          | Raise e => Raise e
          | Return l => Return (if b then r :: l else l)
          end
      end
  end.

Definition search_emails `{Runtime} (self : Database) (pattern : string)
  (date_range : option DateRange) : outcome (list EmailMetadata) :=
  match select_where (where_clause pattern date_range) (emails self) with
  | Raise e => Raise e
  | Return rows => Return (map row_email rows)
  end.

(* ================================================================= *)
(** ** The world and its monad *)

(** A parsed header block: the fields of the message in order.
    [email.message_from_bytes] is applied to the literal of a FETCH
    response; a literal is represented here by the fields that parse
    yields, with values of type [str]. *)
Definition Message : Type := list (string * string).

(** One element of the list [imaplib] returns from [fetch]. *)
Inductive fetch_item : Type :=
| FNone
| FBytes (line : string)
| FTuple (envelope : string) (literal : Message).

#[export] Instance truthy_fetch_item : Truthy fetch_item :=
  fun x => match x with
           | FNone => false
           | FBytes b => truthy b
           | FTuple _ _ => true
           end.

(** A calendar day, as [format("D-MMM-YYYY")] prints it. *)
Definition Day : Type := (Z * Z * Z)%type.

(** An authenticated session with INBOX selected read-only. *)
Record IMAP4 : Type := mkIMAP4 {
  imap_search : Day -> Day -> outcome (list string);
  imap_fetch : string -> outcome (list fetch_item)
}.

Inductive net_event : Type :=
| NetSearch (since before : Day)
| NetFetch (message_set : string).

(** The statements of the unit of work of [store_emails]. *)
Inductive db_op : Type :=
| OpBegin | OpUpsert | OpSelectRanges | OpDeleteRanges | OpInsertRanges
| OpCommit.

Record World : Type := mkWorld {
  (** the committed content of [email_cache.db] *)
  db : Database;
  (** [IMAPClient.connection_pool] *)
  connection_pool : list IMAP4;
  (** what [_create_connection] obtains; [None] when login fails *)
  server : option IMAP4;
  (** [pendulum.now("UTC")] at its n-th call, and the calls made so far *)
  clock : nat -> DateTime;
  ticks : nat;
  (** the requests sent to the mail server, oldest first *)
  net_log : list net_event;
  (** which statements of a unit of work fail *)
  fault : db_op -> bool;
  (** lines waiting on standard input *)
  stdin : list string
}.

Definition M (A : Type) : Type := World -> outcome A * World.

Definition ret {A} (a : A) : M A := fun w => (Return a, w).
Definition raise {A} (e : exn) : M A := fun w => (Raise e, w).

Definition bind {A B} (m : M A) (k : A -> M B) : M B :=
  fun w => match m w with
           | (Return a, w') => k a w'
           | (Raise e, w') => (Raise e, w')
           end.

Declare Scope py_scope.
Delimit Scope py_scope with py.
Notation "x <- m ;; k" := (bind m (fun x => k))
  (at level 100, m at next level, right associativity) : py_scope.
Notation "m ;;; k" := (bind m (fun _ => k))
  (at level 100, right associativity) : py_scope.
Open Scope py_scope.

(** [try: m except Exception as e: handler e]. *)
Definition try_except {A} (m : M A) (handler : exn -> M A) : M A :=
  fun w => match m w with
           | (Return a, w') => (Return a, w')
           | (Raise e, w') => handler e w'
           end.

(** [try: m finally: cleanup]. *)
Definition try_finally {A} (m : M A) (cleanup : M unit) : M A :=
  fun w => match m w with
           | (r, w') =>
               match cleanup w' with
               | (Return _, w'') => (r, w'')
               | (Raise e, w'') => (Raise e, w'')
               end
           end.

Definition lift {A} (o : outcome A) : M A := fun w => (o, w).

Definition set_db (d : Database) : M unit :=
  fun w => (Return tt,
            mkWorld d (connection_pool w) (server w) (clock w) (ticks w)
                    (net_log w) (fault w) (stdin w)).

Definition set_pool (p : list IMAP4) : M unit :=
  fun w => (Return tt,
            mkWorld (db w) p (server w) (clock w) (ticks w)
                    (net_log w) (fault w) (stdin w)).

Definition send (e : net_event) : M unit :=
  fun w => (Return tt,
            mkWorld (db w) (connection_pool w) (server w) (clock w) (ticks w)
                    (net_log w ++ [e]) (fault w) (stdin w)).

(** [pendulum.now("UTC")]. *)
Definition pendulum_now : M DateTime :=
  fun w => (Return (clock w (ticks w)),
            mkWorld (db w) (connection_pool w) (server w) (clock w)
                    (S (ticks w)) (net_log w) (fault w) (stdin w)).

(** [input()] and [console.input()]. *)
Definition input : M string :=
  fun w => match stdin w with
           | [] => (Raise EOFError, w)
           | line :: rest =>
               (Return line,
                mkWorld (db w) (connection_pool w) (server w) (clock w)
                        (ticks w) (net_log w) (fault w) rest)
           end.

(** A statement of the unit of work: it raises when the storage fails. *)
Definition sql (op : db_op) : M unit :=
  fun w => if fault w op
           then (Raise (OperationalError "disk I/O error"), w)
           else (Return tt, w).

(* ================================================================= *)
(** ** EmailCache: the writers *)

(** A connection is the view of the database inside its open
    transaction; it reaches the file at [commit] and is dropped by
    [rollback]. [get_cached_ranges] opens a connection of its own and so
    reads the file. *)
Definition _update_date_ranges (conn : Database) (new_range : DateRange)
  : M Database :=
  sql OpSelectRanges ;;;
  file <- (fun w => (Return (db w), w)) ;;
  merged <- lift (merged_ranges (get_cached_ranges file) new_range) ;;
  sql OpDeleteRanges ;;;
  let conn := mkDatabase (emails conn) [] in
  sql OpInsertRanges ;;;
  ret (mkDatabase (emails conn) (date_ranges conn ++ merged)).

Definition commit (conn : Database) : M unit :=
  sql OpCommit ;;; set_db conn.

Definition rollback : M unit := ret tt.

Definition store_emails (emails_ : list EmailMetadata) (date_range : DateRange)
  : M unit :=
  if negb (truthy emails_) then ret tt
  else
    try_except
      (conn <- (fun w => (Return (db w), w)) ;;
       sql OpBegin ;;;
       try_except
         (now <- pendulum_now ;;
          sql OpUpsert ;;;
          let conn :=
            mkDatabase
              (executemany_upsert (emails conn)
                                  (map (fun e => mkRow e now) emails_))
              (date_ranges conn) in
          conn <- _update_date_ranges conn date_range ;;
          commit conn)
         (fun e => rollback ;;; raise e))
      (fun e => raise e).

Definition cleanup_old_data (days_to_keep : Z) : M unit :=
  now <- pendulum_now ;;
  let cutoff_date := add_days now (- days_to_keep) in
  conn <- (fun w => (Return (db w), w)) ;;
  set_db (trim cutoff_date conn).

(* ================================================================= *)
(** ** IMAPClient *)

Definition _get_connection : M (option IMAP4) :=
  fun w => match connection_pool w with
           | conn :: rest => (set_pool rest ;;; ret (Some conn)) w
           | [] => (Return (server w), w)
           end.

Definition _release_connection (conn : IMAP4) : M unit :=
  fun w => set_pool (connection_pool w ++ [conn]) w.

Definition dquote : string := String (ascii_of_nat 34) EmptyString.

Definition _generate_gmail_link (subject_ : string) : option string :=
  if negb (truthy subject_) then None
  else Some ("https://mail.google.com/mail/u/0/#search/subject%3A"
             ++ quote subject_)%string.

Definition _decode_header `{Runtime} (header : string) : string :=
  if negb (truthy header) then EmptyString
  else match decode_header_first header with
       | Some value => value
       | None => header
       end.

(** [pendulum.instance(dt)] keeps the offset of an aware [dt]. *)
Definition pendulum_instance (dt : datetime) (offset : Z) : DateTime :=
  mkDateTime (dt_year dt) (dt_month dt) (dt_day dt)
             (dt_hour dt) (dt_minute dt) (dt_second dt) (dt_microsecond dt)
             offset.

Definition _parse_date `{Runtime} (date_str : option string) : M DateTime :=
  if negb (truthy date_str) then pendulum_now
  else
    match date_str with
    | None => pendulum_now
    | Some s =>
        match parsedate_to_datetime s with
        | Some dt =>
            match tzinfo dt with
            | None => ret (pendulum_instance dt 0)
            | Some offset => ret (pendulum_instance dt offset)
            end
        | None => pendulum_now
        end
    end.

(** [Message.get(name, default)]: field names compare without case. *)
Fixpoint msg_get (name : string) (header : Message) : option string :=
  match header with
  | [] => None
  | (k, v) :: rest =>
      if String.eqb (lower k) (lower name) then Some v else msg_get name rest
  end.

Definition msg_get_default (name default : string) (header : Message) : string :=
  match msg_get name header with Some v => v | None => default end.

(** [header_data[j][1]]. *)
Definition literal_of (item : fetch_item) : outcome Message :=
  match item with
  | FTuple _ literal => Return literal
  | FBytes line => if Nat.leb 2 (String.length line) then Raise TypeError
                   else Raise IndexError
  | FNone => Raise TypeError
  end.

(** The body of the inner loop of [fetch_emails] for a present item:
    the record to append, if the message is accepted. *)
Definition parse_metadata `{Runtime} (header : Message)
  : M (option EmailMetadata) :=
  let message_id := strip (msg_get_default "Message-ID" EmptyString header) in
  let from_address := _decode_header (msg_get_default "From" EmptyString header) in
  let subject := _decode_header (msg_get_default "Subject" "(No Subject)" header) in
  date <- _parse_date (msg_get "Date" header) ;;
  let gmail_link :=
    if truthy subject
    then _generate_gmail_link (dquote ++ subject ++ dquote)%string
    else None in
  if all [truthy message_id; truthy from_address; truthy date]
  then ret (Some (mkEmail message_id from_address subject date gmail_link))
  else ret None.

(** The body of the loop over [header_data] at index [j]. *)
Definition process_item `{Runtime} (item : fetch_item)
  (emails_ : list EmailMetadata) : M (list EmailMetadata) :=
  if negb (truthy item) then ret emails_
  else
    header <- lift (literal_of item) ;;
    r <- parse_metadata header ;;
    ret (match r with Some e => emails_ ++ [e] | None => emails_ end).

(** [for j in range(0, len(header_data), 2)]. *)
Fixpoint process_header_data `{Runtime} (header_data : list fetch_item)
  (emails_ : list EmailMetadata) : M (list EmailMetadata) :=
  match header_data with
  | [] => ret emails_
  | item :: rest =>
      emails_ <- process_item item emails_ ;;
      match rest with
      | [] => ret emails_
      | _ :: rest' => process_header_data rest' emails_
      end
  end.

Definition batch_size : nat := 100.

Fixpoint batches_from {A} (fuel : nat) (l : list A) : list (list A) :=
  match fuel with
  | O => []
  | S fuel' =>
      match l with
      | [] => []
      | _ :: _ => firstn batch_size l :: batches_from fuel' (skipn batch_size l)
      end
  end.

(** [message_numbers[i : i + batch_size]] for [i] in
    [range(0, total_messages, batch_size)]. *)
Definition batches {A} (l : list A) : list (list A) :=
  batches_from (List.length l) l.

Fixpoint fetch_batches `{Runtime} (conn : IMAP4) (bs : list (list string))
  (emails_ : list EmailMetadata) : M (list EmailMetadata) :=
  match bs with
  | [] => ret emails_
  | batch :: rest =>
      let message_set := String.concat "," batch in
      send (NetFetch message_set) ;;;
      header_data <- lift (imap_fetch conn message_set) ;;
      emails_ <- process_header_data header_data emails_ ;;
      fetch_batches conn rest emails_
  end.

Definition day_of (t : DateTime) : Day := (year t, month t, day t).

Definition fetch_emails `{Runtime} (date_range : DateRange)
  : M (list EmailMetadata) :=
  conn <- _get_connection ;;
  match conn with
  | None => raise (RuntimeError "Could not establish IMAP connection")
  | Some conn =>
      try_finally
        (let since := day_of (start date_range) in
         let before := day_of (add_days (end_ date_range) 1) in
         send (NetSearch since before) ;;;
         message_numbers <- lift (imap_search conn since before) ;;
         if negb (truthy message_numbers) then ret []
         else fetch_batches conn (batches message_numbers) [])
        (_release_connection conn)
  end.

(* ================================================================= *)
(** ** EmailSearchService *)

#[export] Instance truthy_int : Truthy Z := fun n => negb (n =? 0).

Definition get_db : M Database := fun w => (Return (db w), w).

(** [for date_range in fetch_ranges: try: ... except Exception: print]. *)
Fixpoint fetch_and_store `{Runtime} (fetch_ranges : list DateRange) : M unit :=
  match fetch_ranges with
  | [] => ret tt
  | date_range :: rest =>
      try_except
        (emails_ <- fetch_emails date_range ;;
         if truthy emails_ then store_emails emails_ date_range else ret tt)
        (fun _ => ret tt) ;;;
      fetch_and_store rest
  end.

(** The descending stable sort of [sorted(results, key=date, reverse=True)]. *)
Definition newest_first (results : list EmailMetadata) : list EmailMetadata :=
  stable_sort (fun a b => dt_ge (date a) (date b)) results.

Definition search `{Runtime} (pattern : string) (days_back : option Z)
  : M (list EmailMetadata) :=
  end_date <- pendulum_now ;;
  let start_date :=
    match days_back with
    | Some n => if truthy n then add_days end_date (- n)
                else subtract_years end_date 1
    | None => subtract_years end_date 1
    end in
  let target_range := mkDateRange start_date end_date in
  cache <- get_db ;;
  let missing_ranges := find_missing_ranges cache target_range in
  (if truthy missing_ranges then fetch_and_store missing_ranges else ret tt) ;;;
  cache <- get_db ;;
  results <- lift (search_emails cache pattern (Some target_range)) ;;
  ret (newest_first results).

(* ================================================================= *)
(** ** The prompt *)

Definition set_stdin (lines : list string) : M unit :=
  fun w => (Return tt,
            mkWorld (db w) (connection_pool w) (server w) (clock w) (ticks w)
                    (net_log w) (fault w) lines).

(** The [while True] loop of [get_search_parameters] over the lines
    typed: it ends at "exit" or at the first pattern [re.compile]
    accepts. *)
Fixpoint read_pattern `{Runtime} (lines : list string)
  : outcome (option string) * list string :=
  match lines with
  | [] => (Raise EOFError, [])
  | pattern :: rest =>
      if String.eqb (lower pattern) "exit" then (Return None, rest)
      else match re_compile pattern with
           | Some _ => (Return (Some pattern), rest)
           | None => read_pattern rest
           end
  end.

Definition get_search_parameters `{Runtime} : M (option string * option Z) :=
  p <- (fun w => let '(r, rest) := read_pattern (stdin w) in
                 (set_stdin rest ;;; lift r) w) ;;
  match p with
  | None => ret (None, None)
  | Some pattern =>
      days_input <- input ;;
      let days_input := strip days_input in
      if truthy days_input then
        match py_int days_input with
        | Some days => if days <? 1 then ret (Some pattern, None)
                       else ret (Some pattern, Some days)
        | None => ret (Some pattern, None)
        end
      else ret (Some pattern, None)
  end.

Definition handle_search `{Runtime} : M bool :=
  try_except
    (pd <- get_search_parameters ;;
     match fst pd with
     | None => ret false
     | Some pattern =>
         search pattern (snd pd) ;;;
         input ;;;
         ret true
     end)
    (fun _ => input ;;; ret true).

(* ================================================================= *)
(** ** A small runtime and mailbox for the examples *)

Definition is_special (c : ascii) : bool :=
  existsb (Ascii.eqb c) (list_ascii_of_string ".^$*+?{}[]\|()").

Fixpoint contains (needle hay : string) : bool :=
  if String.prefix needle hay then true
  else match hay with
       | EmptyString => false
       | String _ hay' => contains needle hay'
       end.

Fixpoint digits_value (acc : Z) (s : string) : option Z :=
  match s with
  | EmptyString => Some acc
  | String c s' =>
      let n := nat_of_ascii c in
      if (Nat.leb 48 n && Nat.leb n 57)%bool
      then digits_value (10 * acc + Z.of_nat (n - 48)) s'
      else None
  end.

(** The fragment of the libraries the examples run on. A pattern without
    special characters matches as a substring; a pattern with an
    unmatched opening parenthesis, such as "(", is one [re.compile]
    rejects, and the examples use no other pattern with a special
    character. A header without encoded words decodes to itself. The one
    date header of the examples is parsed, any other is taken as
    unparseable. *)
#[export] Instance plain_runtime : Runtime := {|
  regex := string;
  re_compile := fun p =>
    if existsb is_special (list_ascii_of_string p) then None else Some p;
  regex_search := contains;
  decode_header_first := fun h => Some h;
  parsedate_to_datetime := fun s =>
    if String.eqb s "Fri, 05 Jan 2024 10:00:00 +0500"
    then Some (mk_datetime 2024 1 5 10 0 0 0 (Some 300))
    else None;
  py_int := fun s => match s with
                     | EmptyString => None
                     | _ => digits_value 0 s
                     end
|}.

(* ================================================================= *)
(** ** The canonical-cover invariant *)

(** Stored intervals are well formed, sorted ascending by start and
    pairwise non-overlapping. *)
Definition canonical_cover (l : list DateRange) : Prop :=
  Forall wf_range l
  /\ ForallOrdPairs (fun a b => instant (start a) <= instant (start b)
                                /\ overlaps a b = false) l.

(** The same, as a chain: every interval ends strictly before the next
    one starts. *)
Fixpoint separated (l : list DateRange) : Prop :=
  match l with
  | [] => True
  | a :: l' =>
      wf_range a
      /\ match l' with
         | [] => True
         | b :: _ => instant (end_ a) < instant (start b)
         end
      /\ separated l'
  end.

(** The merging loop of [_update_date_ranges], as a recursion on the
    sorted list. *)
Fixpoint scan (current : DateRange) (rest : list DateRange) : list DateRange :=
  match rest with
  | [] => [current]
  | next_range :: rest' =>
      if overlaps current next_range
      then scan (mkDateRange (dt_min (start current) (start next_range))
                             (dt_max (end_ current) (end_ next_range))) rest'
      else current :: scan next_range rest'
  end.

(** The loop of [find_missing_ranges], as a recursion on the cover. *)
Fixpoint gaps_from (current : DateTime) (cached : list DateRange)
  (target_range : DateRange) : list DateRange :=
  match cached with
  | [] => if dt_lt current (end_ target_range)
          then [mkDateRange current (end_ target_range)] else []
  | c :: cached' =>
      (if dt_lt current (start c) then [mkDateRange current (start c)] else [])
      ++ gaps_from (dt_max current (end_ c)) cached' target_range
  end.

Definition start_le (a b : DateRange) : Prop :=
  instant (start a) <= instant (start b).

(** What a committed unit of work leaves in the file. *)
Definition stored (emails_ : list EmailMetadata) (merged : list DateRange)
  (w : World) : Database :=
  mkDatabase
    (executemany_upsert (emails (db w))
                        (map (fun e => mkRow e (clock w (ticks w))) emails_))
    merged.

Definition gap_before (a b : DateRange) : Prop :=
  instant (end_ a) <= instant (start b).

(* ================================================================= *)
(** ** The layout of a FETCH response *)

(** An item the loop can take at an even index: a (header, literal)
    pair, or a value that is false. *)
Definition usable_slot (item : fetch_item) : Prop :=
  match item with
  | FBytes line => line = EmptyString
  | _ => True
  end.

(** Every message takes two items, and the first of the two is usable. *)
Fixpoint paired (header_data : list fetch_item) : Prop :=
  match header_data with
  | [] => True
  | item :: rest =>
      usable_slot item
      /\ match rest with
         | [] => True
         | _ :: rest' => paired rest'
         end
  end.

(** The header blocks of the messages that were retrieved. *)
Fixpoint present_headers (header_data : list fetch_item) : list Message :=
  match header_data with
  | [] => []
  | item :: rest =>
      match item with FTuple _ literal => [literal] | _ => [] end
      ++ match rest with
         | [] => []
         | _ :: rest' => present_headers rest'
         end
  end.

(** A message has both required fields. *)
Definition acceptable `{Runtime} (header : Message) : bool :=
  truthy (strip (msg_get_default "Message-ID" EmptyString header))
  && truthy (_decode_header (msg_get_default "From" EmptyString header)).

(** The fields of a record other than its date. *)
Definition drop_date (e : EmailMetadata)
  : string * string * string * option string :=
  (message_id e, from_address e, subject e, gmail_link e).

Definition fields_of `{Runtime} (header : Message)
  : string * string * string * option string :=
  let subject := _decode_header (msg_get_default "Subject" "(No Subject)" header) in
  (strip (msg_get_default "Message-ID" EmptyString header),
   _decode_header (msg_get_default "From" EmptyString header),
   subject,
   if truthy subject
   then _generate_gmail_link (dquote ++ subject ++ dquote)%string
   else None).

(** What the server sends back for a batch. *)
Definition fetched (conn : IMAP4) (batch : list string) : list fetch_item :=
  match imap_fetch conn (String.concat "," batch) with
  | Return header_data => header_data
  | Raise _ => []
  end.

(** Two worlds that differ at most in the number of clock readings. *)
Definition only_ticks (w w' : World) : Prop :=
  exists n, w' = mkWorld (db w) (connection_pool w) (server w) (clock w) n
                         (net_log w) (fault w) (stdin w).

Definition has_required_fields (e : EmailMetadata) : Prop :=
  message_id e <> EmptyString /\ from_address e <> EmptyString.

(* ================================================================= *)
(** ** The calendar behind [isoformat] and [instant] *)

(** The year that starts on 1 March: January and February belong to the
    year before. *)
Definition march_year (y m : Z) : Z := if m <=? 2 then y - 1 else y.

(** Day number of 1 March of a March-based year. *)
Definition march_days (Y : Z) : Z :=
  let era := Y / 400 in
  let yoe := Y - era * 400 in
  era * 146097 + yoe * 365 + yoe / 4 - yoe / 100 - 719468.

(** Days since 1 March of a month and day. *)
Definition day_of_march_year (m d : Z) : Z :=
  (153 * (if m >? 2 then m - 3 else m + 9) + 2) / 5 + d - 1.

(** A date of the calendar. *)
Definition valid_date (y m d : Z) : Prop :=
  1 <= m <= 12 /\ 1 <= d <= days_in_month y m.

(** The fields of a [datetime]: years of four digits, a date of the
    calendar, a time of day. *)
Definition valid_datetime (t : DateTime) : Prop :=
  0 <= year t <= 9999
  /\ valid_date (year t) (month t) (day t)
  /\ 0 <= hour t < 24 /\ 0 <= minute t < 60 /\ 0 <= second t < 60
  /\ 0 <= microsecond t < 1000000.

(** Lexicographic composition of two comparisons. *)
Definition then_compare (c1 c2 : comparison) : comparison :=
  match c1 with Eq => c2 | _ => c1 end.

(** Year, month, day, hour, minute, second and microsecond, compared in
    this order. *)
Definition fields_compare (a b : DateTime) : comparison :=
  then_compare (year a ?= year b)
  (then_compare (month a ?= month b)
  (then_compare (day a ?= day b)
  (then_compare (hour a ?= hour b)
  (then_compare (minute a ?= minute b)
  (then_compare (second a ?= second b)
                (microsecond a ?= microsecond b)))))).

(* ================================================================= *)
(** ** Example worlds *)

Definition no_fault : db_op -> bool := fun _ => false.

(** A clock that starts at noon on 1 June 2024 and advances by one
    second at every reading. *)
Definition june_clock (n : nat) : DateTime := utc 2024 6 1 12 0 (Z.of_nat n).

Definition jan (d : Z) : DateTime := utc 2024 1 d 0 0 0.

Definition world_of (d : Database) (srv : option IMAP4) (lines : list string)
  : World :=
  mkWorld d [] srv june_clock 0 [] no_fault lines.

(** A cache that covers 1 to 5 January 2024. *)
Definition db_jan_1_5 : Database :=
  mkDatabase [] [mkDateRange (jan 1) (jan 5)].

(** A cache that covers 10 to 20 January 2024, and one that covers 20 to
    30 January. *)
Definition db_jan_10_20 : Database :=
  mkDatabase [] [mkDateRange (jan 10) (jan 20)].

Definition db_jan_20_30 : Database :=
  mkDatabase [] [mkDateRange (jan 20) (jan 30)].

Definition alice_mail : EmailMetadata :=
  mkEmail "<m1@example.com>" "alice@example.com" "hello" (jan 7) None.

Definition commit_fails : db_op -> bool :=
  fun op => match op with OpCommit => true | _ => false end.

(** The world of [world_of], with a storage whose commit fails. *)
Definition world_commit_fails (d : Database) : World :=
  mkWorld d [] None june_clock 0 [] commit_fails [].

(** Three messages, of which the server has nothing to say about the
    second. *)
Definition message_1 : Message :=
  [("Message-ID", "<m1@example.com>"); ("From", "alice@example.com");
   ("Subject", "hello"); ("Date", "Fri, 05 Jan 2024 10:00:00 +0500")].

Definition message_3 : Message :=
  [("Message-Id", " <m3@example.com> "); ("From", "bob@example.com")].

Definition three_message_server : IMAP4 :=
  mkIMAP4
    (fun _ _ => Return ["1"; "2"; "3"])
    (fun message_set =>
       if String.eqb message_set "1,2,3"
       then Return [FTuple "1 (BODY[HEADER.FIELDS (FROM SUBJECT DATE MESSAGE-ID)] {120}" message_1;
                    FBytes ")";
                    FNone;
                    FBytes ")";
                    FTuple "3 (BODY[HEADER.FIELDS (FROM SUBJECT DATE MESSAGE-ID)] {70}" message_3;
                    FBytes ")"]
       else Raise IMAPError).

Definition year_2024 : DateRange :=
  mkDateRange (jan 1) (utc 2024 12 31 0 0 0).

(** A mailbox with the first of these messages only. *)
Definition one_message_server : IMAP4 :=
  mkIMAP4
    (fun _ _ => Return ["1"])
    (fun message_set =>
       if String.eqb message_set "1"
       then Return [FTuple "1 (BODY[HEADER.FIELDS (FROM SUBJECT DATE MESSAGE-ID)] {120}" message_1;
                    FBytes ")"]
       else Raise IMAPError).

(** The world with other lines waiting on standard input. *)
Definition with_stdin (lines : list string) (w : World) : World :=
  snd (set_stdin lines w).

(** Records whose Date header carried an offset other than UTC, as
    [_parse_date] keeps it. *)
Definition mail_at (mid : string) (t : DateTime) : EmailMetadata :=
  mkEmail mid "alice@example.com" "hello" t None.

(** 10:00 at +05:00 is 05:00 UTC; 01:00 at -05:00 is 06:00 UTC. *)
Definition mail_0500_utc : EmailMetadata :=
  mail_at "<early@example.com>" (mkDateTime 2024 1 5 10 0 0 0 300).

Definition mail_0600_utc : EmailMetadata :=
  mail_at "<onstart@example.com>" (mkDateTime 2024 1 5 1 0 0 0 (-300)).

(** 14:00 at +05:00 is 09:00 UTC; 10:00 at -05:00 is 15:00 UTC. *)
Definition mail_0900_utc : EmailMetadata :=
  mail_at "<stale@example.com>" (mkDateTime 2024 1 5 14 0 0 0 300).

Definition mail_1500_utc : EmailMetadata :=
  mail_at "<fresh@example.com>" (mkDateTime 2024 1 5 10 0 0 0 (-300)).

(** The stored text of a value orders it against the cutoff as its
    instant does. *)
Definition text_agrees (cutoff x : DateTime) : Prop :=
  text_lt (isoformat x) (isoformat cutoff) = dt_lt x cutoff.

(* ================================================================= *)
(** ** Notions for the further properties *)

(** Where the stable sort by start puts an interval appended to a sorted
    list: after every interval that starts no later. *)
Fixpoint place (x : DateRange) (l : list DateRange) : list DateRange :=
  match l with
  | [] => [x]
  | a :: l' => if dt_le (start a) (start x) then a :: place x l'
               else x :: a :: l'
  end.

(** An interval lies within one interval of a list. *)
Definition within_one (r : DateRange) (l : list DateRange) : Prop :=
  exists J, In J l /\ instant (start J) <= instant (start r)
            /\ instant (end_ r) <= instant (end_ J).

(** What the UPDATE of the retention pass does to an interval, and
    which intervals its second DELETE keeps, in terms of instants. *)
Definition raise_start (cutoff : DateTime) (r : DateRange) : DateRange :=
  if dt_lt (start r) cutoff then mkDateRange cutoff (end_ r) else r.

Definition ends_from (cutoff : DateTime) (r : DateRange) : bool :=
  negb (dt_lt (end_ r) cutoff).

(** A cache in UTC: coverage 1-10 January, one record on the 3rd and
    one on the 7th. *)
Definition db_utc : Database :=
  mkDatabase [mkRow (mail_at "<old@example.com>" (jan 3)) (june_clock 0);
              mkRow (mail_at "<new@example.com>" (jan 7)) (june_clock 0)]
             [mkDateRange (jan 1) (jan 10)].

(** The primary keys of the rows of [emails], in rowid order. *)
Definition keys (rows : list EmailRow) : list string :=
  map (fun r => message_id (row_email r)) rows.

(** The stored text of a date lies within the texts of a window. *)
Definition in_window_text (window : option DateRange) (t : DateTime) : bool :=
  match window with
  | None => true
  | Some dr => text_le (isoformat (start dr)) (isoformat t)
               && text_le (isoformat t) (isoformat (end_ dr))
  end.

(** Two worlds with the same cache, pool, server, clock, storage and
    input: they differ at most in the clock readings made and in the
    requests sent. *)
Definition quiet (w w' : World) : Prop :=
  db w' = db w /\ connection_pool w' = connection_pool w
  /\ server w' = server w /\ clock w' = clock w
  /\ fault w' = fault w /\ stdin w' = stdin w.

(** The FETCH requests for a list of batches. *)
Definition fetch_requests (bs : list (list string)) : list net_event :=
  map (fun batch => NetFetch (String.concat "," batch)) bs.

(** A server that answers nothing. *)
Definition broken_server : IMAP4 :=
  mkIMAP4 (fun _ _ => Raise IMAPError) (fun _ => Raise IMAPError).

(** The world of [world_of], with connections in the pool. *)
Definition world_with_pool (d : Database) (pool : list IMAP4) : World :=
  mkWorld d pool None june_clock 0 [] no_fault [].

(** The window [search] computes from the clock reading. *)
Definition target_of (days_back : option Z) (end_date : DateTime) : DateRange :=
  mkDateRange
    match days_back with
    | Some n => if truthy n then add_days end_date (- n)
                else subtract_years end_date 1
    | None => subtract_years end_date 1
    end
    end_date.

(** Newest first. *)
Definition not_older (a b : EmailMetadata) : Prop :=
  instant (date b) <= instant (date a).

(** The world of [world_of], unreachable server, failing commit. *)
Definition world_offline (d : Database) : World :=
  mkWorld d [broken_server] None june_clock 0 [] commit_fails [].

(** The records of [db_utc] under a coverage of 2023 and 2024. *)
Definition db_covered : Database :=
  mkDatabase (emails db_utc)
             [mkDateRange (utc 2023 1 1 0 0 0) (utc 2025 1 1 0 0 0)].

(** A mailbox without messages. *)
Definition empty_server : IMAP4 :=
  mkIMAP4 (fun _ _ => Return []) (fun _ => Raise IMAPError).

(** Every connection the client can get finds no message. *)
Definition silent (w : World) : Prop :=
  (forall conn, In conn (connection_pool w) ->
     forall since before, imap_search conn since before = Return [])
  /\ (forall conn, server w = Some conn ->
        forall since before, imap_search conn since before = Return []).

(* ================================================================= *)
(** * Properties *)

(** ** Comparisons *)

Lemma dt_le_iff a b : dt_le a b = true <-> instant a <= instant b.
Proof. unfold dt_le. apply Z.leb_le. Qed.

Lemma dt_lt_iff a b : dt_lt a b = true <-> instant a < instant b.
Proof. unfold dt_lt. apply Z.ltb_lt. Qed.

Lemma dt_ge_iff a b : dt_ge a b = true <-> instant b <= instant a.
Proof. unfold dt_ge. apply Z.leb_le. Qed.

Lemma instant_dt_min a b : instant (dt_min a b) = Z.min (instant a) (instant b).
Proof.
  unfold dt_min, dt_lt. destruct (instant b <? instant a) eqn:E.
  - apply Z.ltb_lt in E. lia.
  - apply Z.ltb_ge in E. lia.
Qed.

Lemma instant_dt_max a b : instant (dt_max a b) = Z.max (instant a) (instant b).
Proof.
  unfold dt_max, dt_gt. destruct (instant a <? instant b) eqn:E.
  - apply Z.ltb_lt in E. lia.
  - apply Z.ltb_ge in E. lia.
Qed.

Lemma overlaps_iff a b :
  overlaps a b = true <->
  instant (start a) <= instant (end_ b) /\ instant (end_ a) >= instant (start b).
Proof.
  unfold overlaps. rewrite andb_true_iff, dt_le_iff, dt_ge_iff. lia.
Qed.

Lemma overlaps_false_iff a b :
  overlaps a b = false <->
  instant (end_ b) < instant (start a) \/ instant (end_ a) < instant (start b).
Proof.
  rewrite <- not_true_iff_false, overlaps_iff. lia.
Qed.

Lemma overlaps_sym a b : overlaps a b = overlaps b a.
Proof.
  destruct (overlaps a b) eqn:E1, (overlaps b a) eqn:E2; trivial.
  - apply overlaps_iff in E1. apply overlaps_false_iff in E2. lia.
  - apply overlaps_iff in E2. apply overlaps_false_iff in E1. lia.
Qed.

(** C8. For all intervals A and B with start <= end: overlaps is
    symmetric; it holds exactly when A.start <= B.end and
    A.end >= B.start, so two intervals that touch overlap; merge raises
    exactly when they do not overlap; when they do, merge(A, B) and
    merge(B, A) are equal, start at the smaller start and end at the
    larger end. *)
Theorem DateRange_overlaps_merge (A B : DateRange) :
  wf_range A -> wf_range B ->
  overlaps A B = overlaps B A
  /\ (overlaps A B = true <->
      instant (start A) <= instant (end_ B)
      /\ instant (end_ A) >= instant (start B))
  /\ (instant (end_ A) = instant (start B) -> overlaps A B = true)
  /\ ((exists e, merge A B = Raise e) <-> overlaps A B = false)
  /\ (overlaps A B = true ->
      exists m m',
        merge A B = Return m /\ merge B A = Return m'
        /\ dr_eqb m m' = true
        /\ start m = dt_min (start A) (start B)
        /\ end_ m = dt_max (end_ A) (end_ B)
        /\ instant (start m) = Z.min (instant (start A)) (instant (start B))
        /\ instant (end_ m) = Z.max (instant (end_ A)) (instant (end_ B))).
Proof.
  intros HA HB. unfold wf_range in *.
  split; [apply overlaps_sym|].
  split; [apply overlaps_iff|].
  split; [intro E; apply overlaps_iff; lia|].
  split.
  - unfold merge. destruct (overlaps A B); simpl; split.
    + intros [e He]. discriminate.
    + discriminate.
    + reflexivity.
    + eexists; reflexivity.
  - intro Ho. unfold merge. rewrite <- (overlaps_sym A B), Ho. simpl.
    do 2 eexists. split; [reflexivity|]. split; [reflexivity|].
    split.
    + unfold dr_eqb, dt_eqb. cbn [start end_].
      rewrite !instant_dt_min, !instant_dt_max.
      apply andb_true_iff. split; apply Z.eqb_eq; lia.
    + cbn [start end_]. rewrite instant_dt_min, instant_dt_max. auto.
Qed.

Lemma DateRange_overlaps_merge_witness :
  let A := mkDateRange (utc 2024 1 1 0 0 0) (utc 2024 1 5 0 0 0) in
  let B := mkDateRange (utc 2024 1 5 0 0 0) (utc 2024 1 10 0 0 0) in
  wf_range A /\ wf_range B
  /\ overlaps A B = true
  /\ merge A B = Return (mkDateRange (utc 2024 1 1 0 0 0) (utc 2024 1 10 0 0 0)).
Proof.
  intros A B.
  assert (HA : wf_range A) by (apply Z.leb_le; vm_compute; reflexivity).
  assert (HB : wf_range B) by (apply Z.leb_le; vm_compute; reflexivity).
  split; [exact HA|]. split; [exact HB|].
  destruct (DateRange_overlaps_merge A B HA HB) as (_ & _ & Ht & _ & Hm).
  assert (Ho : overlaps A B = true) by (apply Ht; vm_compute; reflexivity).
  split; [exact Ho|].
  destruct (Hm Ho) as (m & m' & E & _ & _ & Es & Ee & _).
  rewrite E. destruct m as [s e]. simpl in Es, Ee. subst s e.
  vm_compute. reflexivity.
Defined.

(* ================================================================= *)
(** ** Stable sorting *)

Section StableSortFacts.
Context {A : Type} (le : A -> A -> bool) (R : A -> A -> Prop).
Hypothesis le_R : forall a b, le a b = true -> R a b.
Hypothesis le_total : forall a b, le a b = false -> R b a.

Lemma insert_sorted_perm x l : Permutation (insert_sorted le x l) (x :: l).
Proof.
  induction l as [|y l IH]; cbn [insert_sorted].
  - apply Permutation_refl.
  - destruct (le x y).
    + apply Permutation_refl.
    + eapply perm_trans; [apply perm_skip, IH | apply perm_swap].
Qed.

Lemma stable_sort_perm l : Permutation (stable_sort le l) l.
Proof.
  induction l as [|x l IH]; cbn [stable_sort fold_right].
  - apply perm_nil.
  - eapply perm_trans; [apply insert_sorted_perm | apply perm_skip, IH].
Qed.

Lemma insert_sorted_HdRel a x l :
  R a x -> HdRel R a l -> HdRel R a (insert_sorted le x l).
Proof.
  intros Hax Hl. destruct l as [|y l]; cbn [insert_sorted].
  - constructor. exact Hax.
  - destruct (le x y); constructor.
    + exact Hax.
    + inversion Hl; assumption.
Qed.

Lemma insert_sorted_Sorted x l :
  Sorted R l -> Sorted R (insert_sorted le x l).
Proof.
  induction 1 as [|y l Hs IH Hhd]; cbn [insert_sorted].
  - repeat constructor.
  - destruct (le x y) eqn:E.
    + constructor; [constructor; assumption|]. constructor. auto.
    + constructor; [exact IH|]. apply insert_sorted_HdRel; auto.
Qed.

Lemma stable_sort_Sorted l : Sorted R (stable_sort le l).
Proof.
  induction l as [|x l IH]; cbn [stable_sort fold_right].
  - constructor.
  - apply insert_sorted_Sorted, IH.
Qed.
End StableSortFacts.

Lemma sort_by_start_Sorted l :
  Sorted start_le (stable_sort (fun a b => dt_le (start a) (start b)) l).
Proof.
  apply stable_sort_Sorted; intros a b E; unfold start_le.
  - apply dt_le_iff in E. exact E.
  - unfold dt_le in E. apply Z.leb_gt in E. lia.
Qed.

Lemma get_cached_ranges_perm self :
  Permutation (get_cached_ranges self) (date_ranges self).
Proof. apply stable_sort_perm. Qed.

Lemma covered_perm l l' t : Permutation l l' -> covered l t -> covered l' t.
Proof.
  intros P (r & Hin & Hc). exists r. split; [|exact Hc].
  eapply Permutation_in; eassumption.
Qed.

Lemma covered_cons r l t : covered (r :: l) t <-> covers r t \/ covered l t.
Proof.
  unfold covered. split.
  - intros (x & [<-|Hin] & Hc); [left; exact Hc | right; eauto].
  - intros [Hc | (x & Hin & Hc)]; [exists r | exists x]; simpl; auto.
Qed.

Lemma covered_app l l' t : covered (l ++ l') t <-> covered l t \/ covered l' t.
Proof.
  unfold covered. split.
  - intros (x & Hin & Hc). apply in_app_or in Hin. destruct Hin; eauto.
  - intros [(x & Hin & Hc) | (x & Hin & Hc)]; exists x; split; auto;
      apply in_or_app; auto.
Qed.

Lemma covered_nil t : ~ covered [] t.
Proof. intros (x & [] & _). Qed.

(* ================================================================= *)
(** ** The merging loop *)

(** The loop with its accumulator computes [scan], and [merge] never
    raises in it. *)
Lemma merge_loop_scan rest : forall merged current,
  exists m c,
    fold_left merge_step rest (Return (merged, current)) = Return (m, c)
    /\ m ++ [c] = merged ++ scan current rest.
Proof.
  induction rest as [|next rest IH]; intros merged current.
  - exists merged, current. split; reflexivity.
  - cbn [fold_left merge_step scan]. unfold merge.
    destruct (overlaps current next) eqn:E; cbn [negb].
    + apply IH.
    + destruct (IH (merged ++ [current]) next) as (m & c & E1 & E2).
      exists m, c. split; [exact E1|].
      rewrite E2, <- app_assoc. reflexivity.
Qed.

Lemma merged_ranges_scan ranges new_range :
  exists r0 rest,
    stable_sort (fun a b => dt_le (start a) (start b)) (ranges ++ [new_range])
    = r0 :: rest
    /\ merged_ranges ranges new_range = Return (scan r0 rest).
Proof.
  unfold merged_ranges.
  destruct (stable_sort _ (ranges ++ [new_range])) as [|r0 rest] eqn:E.
  - exfalso.
    assert (P := stable_sort_perm (fun a b => dt_le (start a) (start b))
                                  (ranges ++ [new_range])).
    rewrite E in P. apply Permutation_nil in P.
    destruct ranges; discriminate.
  - exists r0, rest. split; [reflexivity|].
    destruct (merge_loop_scan rest [] r0) as (m & c & E1 & E2).
    rewrite E1, E2. reflexivity.
Qed.

Lemma scan_head rest : forall current,
  Sorted start_le (current :: rest) ->
  exists h t, scan current rest = h :: t
              /\ instant (start h) = instant (start current).
Proof.
  induction rest as [|next rest IH]; intros current Hs.
  - exists current, []. split; reflexivity.
  - cbn [scan]. destruct (overlaps current next) eqn:E.
    + inversion Hs as [|? ? Hs' Hhd]; subst.
      inversion Hhd as [|? ? Hcn]; subst. unfold start_le in Hcn.
      destruct (IH (mkDateRange (dt_min (start current) (start next))
                                (dt_max (end_ current) (end_ next))))
        as (h & t & E1 & E2).
      * inversion Hs' as [|? ? Hs'' Hhd']; subst.
        constructor; [exact Hs''|].
        destruct rest as [|x rest]; constructor.
        inversion Hhd' as [|? ? Hnx]; subst. unfold start_le in *.
        cbn [start]. rewrite instant_dt_min. lia.
      * exists h, t. split; [exact E1|]. rewrite E2. cbn [start].
        rewrite instant_dt_min. lia.
    + exists current, (scan next rest). split; reflexivity.
Qed.

Lemma scan_separated rest : forall current,
  wf_range current -> Forall wf_range rest ->
  Sorted start_le (current :: rest) ->
  separated (scan current rest).
Proof.
  induction rest as [|next rest IH]; intros current Hw Hall Hs.
  - cbn. auto.
  - inversion Hall as [|? ? Hwn Hall']; subst.
    inversion Hs as [|? ? Hs' Hhd]; subst.
    inversion Hhd as [|? ? Hcn]; subst. unfold start_le in Hcn.
    unfold wf_range in Hw, Hwn.
    cbn [scan]. destruct (overlaps current next) eqn:E.
    + apply IH.
      * unfold wf_range. cbn [start end_].
        rewrite instant_dt_min, instant_dt_max. lia.
      * exact Hall'.
      * inversion Hs' as [|? ? Hs'' Hhd']; subst.
        constructor; [exact Hs''|].
        destruct rest as [|x rest]; constructor.
        inversion Hhd' as [|? ? Hnx]; subst. unfold start_le in *.
        cbn [start]. rewrite instant_dt_min. lia.
    + destruct (scan_head rest next Hs') as (h & t & E1 & E2).
      cbn [separated]. split; [exact Hw|]. split.
      * rewrite E1, E2. apply overlaps_false_iff in E. lia.
      * apply IH; assumption.
Qed.

Lemma covers_merged a b t :
  overlaps a b = true ->
  covers (mkDateRange (dt_min (start a) (start b)) (dt_max (end_ a) (end_ b))) t
  <-> covers a t \/ covers b t.
Proof.
  intro E. apply overlaps_iff in E. unfold covers. cbn [start end_].
  rewrite instant_dt_min, instant_dt_max. lia.
Qed.

Lemma scan_covered rest : forall current t,
  covered (scan current rest) t <-> covered (current :: rest) t.
Proof.
  induction rest as [|next rest IH]; intros current t.
  - reflexivity.
  - cbn [scan]. destruct (overlaps current next) eqn:E.
    + rewrite IH, !covered_cons, covers_merged by exact E. tauto.
    + rewrite covered_cons, IH, !covered_cons. tauto.
Qed.

Lemma separated_canonical l : separated l -> canonical_cover l.
Proof.
  assert (Hgen : forall l, separated l ->
            Forall wf_range l
            /\ ForallOrdPairs (fun a b => instant (start a) <= instant (start b)
                                          /\ overlaps a b = false) l
            /\ forall a l', l = a :: l' ->
                 Forall (fun b => instant (end_ a) < instant (start b)) l').
  { clear l. induction l as [|a l IH]; intro Hs.
    - repeat split; try constructor. discriminate.
    - cbn [separated] in Hs. destruct Hs as (Hw & Hn & Hs).
      destruct (IH Hs) as (Hwf & Hop & Hlt).
      assert (Hall : Forall (fun b => instant (end_ a) < instant (start b)) l).
      { destruct l as [|b l]; [constructor|].
        constructor; [exact Hn|].
        specialize (Hlt b l eq_refl).
        inversion Hwf as [|? ? Hwb _]; subst. unfold wf_range in Hwb.
        eapply Forall_impl; [|exact Hlt]. cbv beta. intros c Hc. lia. }
      split; [constructor; assumption|]. split.
      + constructor; [|exact Hop].
        eapply Forall_impl; [|exact Hall]. cbv beta. intros b Hb.
        unfold wf_range in Hw. split; [lia|].
        apply overlaps_false_iff. lia.
      + intros a' l' E. injection E as <- <-. exact Hall. }
  intro Hs. destruct (Hgen l Hs) as (H1 & H2 & _). split; assumption.
Qed.

Lemma canonical_separated l : canonical_cover l -> separated l.
Proof.
  intros [Hwf Hop]. induction l as [|a l IH]; [exact I|].
  inversion Hwf as [|? ? Hwa Hwl]; subst.
  inversion Hop as [|? ? Hall Hop']; subst.
  cbn [separated]. split; [exact Hwa|]. split; [|apply IH; assumption].
  destruct l as [|b l]; [exact I|].
  inversion Hall as [|? ? [Hle Hno] _]; subst.
  inversion Hwl as [|? ? Hwb _]; subst. unfold wf_range in *.
  apply overlaps_false_iff in Hno. lia.
Qed.

(** Insert-then-reduce over any well-formed rows: the result is a
    canonical cover of exactly the instants the rows and the new
    interval cover. *)
Lemma merged_ranges_canonical ranges new_range :
  Forall wf_range ranges -> wf_range new_range ->
  exists merged,
    merged_ranges ranges new_range = Return merged
    /\ canonical_cover merged
    /\ forall t, covered merged t <-> covered ranges t \/ covers new_range t.
Proof.
  intros Hwf Hnew.
  destruct (merged_ranges_scan ranges new_range) as (r0 & rest & Es & Em).
  set (le := fun a b : DateRange => dt_le (start a) (start b)) in *.
  assert (P : Permutation (r0 :: rest) (ranges ++ [new_range])).
  { rewrite <- Es. apply stable_sort_perm. }
  assert (Hall : Forall wf_range (r0 :: rest)).
  { apply Forall_forall. intros x Hx.
    apply (Permutation_in _ P) in Hx. apply in_app_or in Hx.
    destruct Hx as [Hx|[<-|[]]]; [|exact Hnew].
    eapply Forall_forall in Hwf; eassumption. }
  assert (Hsorted : Sorted start_le (r0 :: rest)).
  { rewrite <- Es. apply sort_by_start_Sorted. }
  exists (scan r0 rest). split; [exact Em|]. split.
  - apply separated_canonical. inversion Hall; subst.
    apply scan_separated; assumption.
  - intro t. rewrite scan_covered. split.
    + intro Hc. apply (covered_perm _ _ _ P) in Hc.
      apply covered_app in Hc. destruct Hc as [Hc|Hc]; [left; exact Hc|].
      apply covered_cons in Hc. destruct Hc as [Hc|Hc]; [right; exact Hc|].
      destruct (covered_nil _ Hc).
    + intro Hc. apply (covered_perm (ranges ++ [new_range])).
      * apply Permutation_sym, P.
      * apply covered_app. destruct Hc as [Hc|Hc]; [left; exact Hc|].
        right. apply covered_cons. left. exact Hc.
Qed.

(* ================================================================= *)
(** ** Coverage is kept canonical *)

Lemma canonical_cover_wf l : canonical_cover l -> Forall wf_range l.
Proof. intros [H _]. exact H. Qed.

(** C4. From a state whose stored intervals are pairwise non-overlapping
    and sorted ascending by start, adding an interval with
    [_update_date_ranges] (when the storage does not fail) returns a
    connection whose stored intervals again satisfy the invariant; every
    instant covered before, and every instant of the added interval, is
    covered after, and no other instant is. The emails table is not
    touched. *)
Theorem update_date_ranges_keeps_canonical_cover
  (w : World) (conn : Database) (new_range : DateRange) :
  canonical_cover (date_ranges (db w)) ->
  wf_range new_range ->
  fault w OpSelectRanges = false ->
  fault w OpDeleteRanges = false ->
  fault w OpInsertRanges = false ->
  exists conn',
    _update_date_ranges conn new_range w = (Return conn', w)
    /\ emails conn' = emails conn
    /\ canonical_cover (date_ranges conn')
    /\ (forall t, covered (date_ranges (db w)) t \/ covers new_range t
                  -> covered (date_ranges conn') t)
    /\ (forall t, covered (date_ranges conn') t
                  -> covered (date_ranges (db w)) t \/ covers new_range t).
Proof.
  intros Hc Hnew F1 F2 F3.
  assert (Hwf : Forall wf_range (get_cached_ranges (db w))).
  { apply Forall_forall. intros x Hx.
    apply (Permutation_in _ (get_cached_ranges_perm (db w))) in Hx.
    eapply Forall_forall in Hx; [exact Hx | apply canonical_cover_wf, Hc]. }
  destruct (merged_ranges_canonical _ _ Hwf Hnew) as (merged & Em & Hcan & Hcov).
  exists (mkDatabase (emails conn) merged).
  split.
  { unfold _update_date_ranges, bind, sql, lift, ret.
    rewrite F1, Em, F2, F3. reflexivity. }
  cbn [emails date_ranges]. split; [reflexivity|]. split; [exact Hcan|].
  split; intros t Ht.
  - apply Hcov. destruct Ht as [Ht|Ht]; [left|right; exact Ht].
    eapply covered_perm; [apply Permutation_sym, get_cached_ranges_perm|exact Ht].
  - apply Hcov in Ht. destruct Ht as [Ht|Ht]; [left|right; exact Ht].
    eapply covered_perm; [apply get_cached_ranges_perm|exact Ht].
Qed.

Lemma update_date_ranges_keeps_canonical_cover_witness :
  let w := world_of db_jan_1_5 None [] in
  let new_range := mkDateRange (jan 4) (jan 10) in
  canonical_cover (date_ranges (db w))
  /\ wf_range new_range
  /\ exists conn',
       _update_date_ranges (db w) new_range w = (Return conn', w)
       /\ canonical_cover (date_ranges conn').
Proof.
  intros w new_range.
  assert (Hc : canonical_cover (date_ranges (db w))).
  { apply separated_canonical. cbn. repeat split.
    apply Z.leb_le. vm_compute. reflexivity. }
  assert (Hn : wf_range new_range).
  { apply Z.leb_le. vm_compute. reflexivity. }
  split; [exact Hc|]. split; [exact Hn|].
  destruct (update_date_ranges_keeps_canonical_cover w (db w) new_range Hc Hn
              eq_refl eq_refl eq_refl) as (conn' & E & _ & Hcan & _).
  exists conn'. split; assumption.
Defined.

(** The scenario of the specification: adding 4-10 January to a cache
    that covers 1-5 January leaves the single interval 1-10 January. *)
Example update_date_ranges_merges_overlap :
  fst (_update_date_ranges db_jan_1_5 (mkDateRange (jan 4) (jan 10))
         (world_of db_jan_1_5 None []))
  = Return (mkDatabase [] [mkDateRange (jan 1) (jan 10)]).
Proof. vm_compute. reflexivity. Qed.

(* ================================================================= *)
(** ** The unit of work of [store_emails] *)

(** C3. For a non-empty list of records and any gap, [store_emails]
    either commits both the upserts and the coverage update, or raises
    and leaves the emails table and the date_ranges table exactly as
    they were: whenever a statement of the transaction (the commit
    included) fails, the error reaches the caller and the file is
    unchanged. *)
Theorem store_emails_all_or_nothing
  (emails_ : list EmailMetadata) (date_range : DateRange) (w : World) :
  emails_ <> [] ->
  let r := store_emails emails_ date_range w in
  (forall e, fst r = Raise e -> db (snd r) = db w)
  /\ ((exists op, fault w op = true) ->
      exists e, fst r = Raise e /\ db (snd r) = db w)
  /\ (fst r = Return tt ->
      exists merged,
        merged_ranges (get_cached_ranges (db w)) date_range = Return merged
        /\ db (snd r) = stored emails_ merged w).
Proof.
  intros Hne r. subst r.
  destruct emails_ as [|e0 emails_]; [contradiction|].
  unfold store_emails. cbn [truthy truthy_list negb].
  unfold _update_date_ranges, commit, rollback.
  unfold try_except, bind, sql, pendulum_now, set_db, raise, ret, lift.
  cbn [fault db].
  destruct (fault w OpBegin) eqn:F1; cbn [fst snd db fault].
  { repeat split; try discriminate; eauto. }
  destruct (fault w OpUpsert) eqn:F2; cbn [fst snd db fault].
  { repeat split; try discriminate; eauto. }
  destruct (fault w OpSelectRanges) eqn:F3; cbn [fst snd db fault].
  { repeat split; try discriminate; eauto. }
  destruct (merged_ranges (get_cached_ranges (db w)) date_range)
    as [merged|err] eqn:Em; cbn [fst snd db fault].
  2:{ repeat split; try discriminate; eauto. }
  destruct (fault w OpDeleteRanges) eqn:F4; cbn [fst snd db fault].
  { repeat split; try discriminate; eauto. }
  destruct (fault w OpInsertRanges) eqn:F5; cbn [fst snd db fault].
  { repeat split; try discriminate; eauto. }
  destruct (fault w OpCommit) eqn:F6; cbn [fst snd db fault].
  { repeat split; try discriminate; eauto. }
  split; [discriminate|]. split.
  - intros [op Hop]. destruct op; congruence.
  - intros _. exists merged. split; reflexivity.
Qed.

Lemma store_emails_all_or_nothing_witness :
  let w := world_commit_fails db_jan_1_5 in
  let gap := mkDateRange (jan 5) (jan 10) in
  [alice_mail] <> []
  /\ fault w OpCommit = true
  /\ exists e, fst (store_emails [alice_mail] gap w) = Raise e
               /\ db (snd (store_emails [alice_mail] gap w)) = db w.
Proof.
  intros w gap.
  assert (Hne : [alice_mail] <> []) by discriminate.
  split; [exact Hne|]. split; [reflexivity|].
  destruct (store_emails_all_or_nothing [alice_mail] gap w Hne) as (_ & H & _).
  apply H. exists OpCommit. reflexivity.
Defined.

(** Without a fault the same unit of work commits the record and the
    merged coverage together. *)
Example store_emails_commits_both :
  db (snd (store_emails [alice_mail] (mkDateRange (jan 5) (jan 10))
             (world_of db_jan_1_5 None [])))
  = mkDatabase [mkRow alice_mail (june_clock 0)]
               [mkDateRange (jan 1) (jan 10)].
Proof. vm_compute. reflexivity. Qed.

(* ================================================================= *)
(** ** Gaps *)

Lemma gap_loop_gaps_from target cached : forall missing current,
  (let '(m, c) := fold_left gap_step cached (missing, current) in
   if dt_lt c (end_ target) then m ++ [mkDateRange c (end_ target)] else m)
  = missing ++ gaps_from current cached target.
Proof.
  induction cached as [|c cached IH]; intros missing current.
  - cbn [fold_left gaps_from].
    destruct (dt_lt current (end_ target)); [reflexivity|].
    symmetry. apply app_nil_r.
  - cbn [fold_left gaps_from gap_step]. rewrite IH.
    destruct (dt_lt current (start c)).
    + rewrite <- app_assoc. reflexivity.
    + reflexivity.
Qed.

Lemma find_missing_ranges_gaps_from self target :
  find_missing_ranges self target
  = match get_cached_ranges self with
    | [] => [target]
    | cached => gaps_from (start target) cached target
    end.
Proof.
  unfold find_missing_ranges.
  destruct (get_cached_ranges self) as [|c cached] eqn:E.
  - reflexivity.
  - cbn [truthy truthy_list negb].
    pose proof (gap_loop_gaps_from target (c :: cached) [] (start target)) as H.
    destruct (fold_left gap_step (c :: cached) ([], start target)) as [m cur].
    exact H.
Qed.

(** Once the cursor has reached the end of the target and no cached
    interval starts after it, nothing is emitted. *)
Lemma gaps_from_nothing target cached : forall current,
  instant (end_ target) <= instant current ->
  (forall c, In c cached -> instant (start c) <= instant current) ->
  gaps_from current cached target = [].
Proof.
  induction cached as [|c cached IH]; intros current Hend Hstarts.
  - cbn [gaps_from].
    destruct (dt_lt current (end_ target)) eqn:E; [|reflexivity].
    apply dt_lt_iff in E. lia.
  - cbn [gaps_from].
    destruct (dt_lt current (start c)) eqn:E.
    + apply dt_lt_iff in E. specialize (Hstarts c (or_introl eq_refl)). lia.
    + cbn [app]. apply IH.
      * rewrite instant_dt_max. lia.
      * intros c' Hc'. rewrite instant_dt_max.
        specialize (Hstarts c' (or_intror Hc')). lia.
Qed.

(** C10, as the code behaves. For a zero-length target: on an empty
    cover the result is the target itself; on a non-empty cover none of
    whose intervals starts after the target's instant, the comparison
    [current < target.end] never holds and the result is empty, whether
    or not the instant is covered. *)
Theorem find_missing_ranges_zero_length (self : Database) (target : DateRange) :
  instant (start target) = instant (end_ target) ->
  (get_cached_ranges self = [] -> find_missing_ranges self target = [target])
  /\ (get_cached_ranges self <> [] ->
      (forall c, In c (get_cached_ranges self) ->
                 instant (start c) <= instant (start target)) ->
      find_missing_ranges self target = []).
Proof.
  intro Hz. rewrite find_missing_ranges_gaps_from. split.
  - intros ->. reflexivity.
  - intros Hne Hstarts.
    destruct (get_cached_ranges self) as [|c cached]; [contradiction|].
    apply gaps_from_nothing; [lia | exact Hstarts].
Qed.

Lemma find_missing_ranges_zero_length_witness :
  let target := mkDateRange (jan 25) (jan 25) in
  instant (start target) = instant (end_ target)
  /\ get_cached_ranges db_jan_10_20 <> []
  /\ ~ covered (get_cached_ranges db_jan_10_20) (instant (start target))
  /\ find_missing_ranges db_jan_10_20 target = []
  /\ find_missing_ranges empty_db target = [target].
Proof.
  intro target.
  assert (Hz : instant (start target) = instant (end_ target)) by reflexivity.
  destruct (find_missing_ranges_zero_length db_jan_10_20 target Hz) as [_ H].
  destruct (find_missing_ranges_zero_length empty_db target Hz) as [H0 _].
  split; [exact Hz|]. split; [discriminate|]. split.
  - intros (r & Hin & Hc). destruct Hin as [<-|[]].
    unfold covers in Hc. destruct Hc as [_ Hc].
    apply Z.leb_le in Hc. vm_compute in Hc. discriminate.
  - split.
    + apply H; [discriminate|]. intros c [<-|[]].
      apply Z.leb_le. vm_compute. reflexivity.
    + apply H0. reflexivity.
Defined.

(** C10, as stated, fails: the cover 10-20 January is not empty, the
    zero-length target at 5 January is not covered, and the result is
    not empty but the gap from 5 to 10 January. *)
Lemma find_missing_ranges_zero_length_before_cover :
  let target := mkDateRange (jan 5) (jan 5) in
  canonical_cover (get_cached_ranges db_jan_10_20)
  /\ instant (start target) = instant (end_ target)
  /\ ~ covered (get_cached_ranges db_jan_10_20) (instant (start target))
  /\ get_cached_ranges db_jan_10_20 <> []
  /\ find_missing_ranges db_jan_10_20 target = [mkDateRange (jan 5) (jan 10)]
  /\ find_missing_ranges db_jan_10_20 target <> [].
Proof.
  intro target. split.
  { apply separated_canonical. cbn. repeat split.
    apply Z.leb_le. vm_compute. reflexivity. }
  split; [reflexivity|]. split.
  { intros (r & Hin & Hc). destruct Hin as [<-|[]].
    unfold covers in Hc. destruct Hc as [Hc _].
    apply Z.leb_le in Hc. vm_compute in Hc. discriminate. }
  split; [discriminate|].
  assert (E : find_missing_ranges db_jan_10_20 target
              = [mkDateRange (jan 5) (jan 10)]) by (vm_compute; reflexivity).
  split; [exact E|]. rewrite E. discriminate.
Qed.

(** C1 at its failing input. The cover 20-30 January lies entirely after
    the target 1-10 January; the gap returned runs from 1 to 20 January
    and so does not lie within the target. *)
Theorem find_missing_ranges_gap_beyond_target :
  let target := mkDateRange (jan 1) (jan 10) in
  canonical_cover (get_cached_ranges db_jan_20_30)
  /\ wf_range target
  /\ find_missing_ranges db_jan_20_30 target = [mkDateRange (jan 1) (jan 20)]
  /\ exists g, In g (find_missing_ranges db_jan_20_30 target)
               /\ instant (end_ target) < instant (end_ g).
Proof.
  intro target. split.
  { apply separated_canonical. cbn. repeat split.
    apply Z.leb_le. vm_compute. reflexivity. }
  split; [apply Z.leb_le; vm_compute; reflexivity|].
  assert (E : find_missing_ranges db_jan_20_30 target
              = [mkDateRange (jan 1) (jan 20)]) by (vm_compute; reflexivity).
  split; [exact E|]. rewrite E.
  exists (mkDateRange (jan 1) (jan 20)). split; [left; reflexivity|].
  apply Z.ltb_lt. vm_compute. reflexivity.
Qed.

(** *** What the cursor walk does get right

    When no cached interval starts after the end of the target, and the
    target has positive length, the gaps are the complement of the cover
    inside the target. *)

Lemma separated_after c l :
  separated (c :: l) ->
  Forall (fun r => instant (end_ c) < instant (start r)) l.
Proof.
  revert c. induction l as [|b l IH]; intros c Hs; [constructor|].
  cbn [separated] in Hs. destruct Hs as (_ & Hcb & Hsb).
  constructor; [exact Hcb|].
  pose proof (IH b Hsb) as Hall.
  cbn [separated] in Hsb. destruct Hsb as (Hwb & _ & _). unfold wf_range in Hwb.
  eapply Forall_impl; [|exact Hall]. cbv beta. intros r Hr. lia.
Qed.

Lemma gaps_from_lower target cached : forall current,
  Forall (fun g => instant current <= instant (start g)
                   /\ instant (start g) < instant (end_ g))
         (gaps_from current cached target).
Proof.
  induction cached as [|c cached IH]; intro current; cbn [gaps_from].
  - destruct (dt_lt current (end_ target)) eqn:E; constructor; [|constructor].
    apply dt_lt_iff in E. cbn [start end_]. lia.
  - apply Forall_app. split.
    + destruct (dt_lt current (start c)) eqn:E; constructor; [|constructor].
      apply dt_lt_iff in E. cbn [start end_]. lia.
    + eapply Forall_impl; [|apply IH]. cbv beta.
      intros g [H1 H2]. rewrite instant_dt_max in H1. lia.
Qed.

Lemma gaps_from_upper target cached : forall current,
  (forall c, In c cached -> instant (start c) <= instant (end_ target)) ->
  Forall (fun g => instant (end_ g) <= instant (end_ target))
         (gaps_from current cached target).
Proof.
  induction cached as [|c cached IH]; intros current Hstarts; cbn [gaps_from].
  - destruct (dt_lt current (end_ target)); constructor; [|constructor].
    cbn [end_]. lia.
  - apply Forall_app. split.
    + destruct (dt_lt current (start c)); constructor; [|constructor].
      cbn [end_]. apply Hstarts. left. reflexivity.
    + apply IH. intros c' Hc'. apply Hstarts. right. exact Hc'.
Qed.

Lemma gaps_from_sorted target cached : forall current,
  Forall wf_range cached ->
  Sorted gap_before (gaps_from current cached target).
Proof.
  induction cached as [|c cached IH]; intros current Hwf; cbn [gaps_from].
  - destruct (dt_lt current (end_ target)); repeat constructor.
  - inversion Hwf as [|? ? Hwc Hwf']; subst. unfold wf_range in Hwc.
    destruct (dt_lt current (start c)); cbn [app]; [|apply IH; exact Hwf'].
    constructor; [apply IH; exact Hwf'|].
    pose proof (gaps_from_lower target cached (dt_max current (end_ c))) as Hl.
    destruct (gaps_from (dt_max current (end_ c)) cached target) as [|g gs];
      constructor.
    inversion Hl as [|? ? [Hg _] _]; subst.
    rewrite instant_dt_max in Hg. unfold gap_before. cbn [end_]. lia.
Qed.

Lemma gaps_from_uncovered target cached : forall current,
  separated cached ->
  forall g t, In g (gaps_from current cached target) ->
              instant (start g) < t < instant (end_ g) ->
              ~ covered cached t.
Proof.
  induction cached as [|c cached IH]; intros current Hs g t Hin Ht.
  - apply covered_nil.
  - cbn [gaps_from] in Hin. apply in_app_or in Hin.
    pose proof (separated_after c cached Hs) as Hafter.
    cbn [separated] in Hs. destruct Hs as (Hwc & _ & Hs'). unfold wf_range in Hwc.
    intro Hcov. apply covered_cons in Hcov.
    destruct Hin as [Hin|Hin].
    + destruct (dt_lt current (start c)); [|destruct Hin].
      destruct Hin as [<-|[]]. cbn [start end_] in Ht.
      destruct Hcov as [Hc|(r & Hr & Hc)]; unfold covers in Hc.
      * lia.
      * eapply Forall_forall in Hafter; [|exact Hr]. cbv beta in Hafter. lia.
    + pose proof (gaps_from_lower target cached (dt_max current (end_ c))) as Hl.
      eapply Forall_forall in Hl; [|exact Hin]. cbv beta in Hl.
      rewrite instant_dt_max in Hl.
      destruct Hcov as [Hc|Hc].
      * unfold covers in Hc. lia.
      * exact (IH _ Hs' g t Hin Ht Hc).
Qed.

Lemma gaps_from_complete target cached : forall current t,
  instant current <= t <= instant (end_ target) ->
  t < instant (end_ target) \/ instant current < t ->
  ~ covered cached t ->
  exists g, In g (gaps_from current cached target) /\ covers g t.
Proof.
  induction cached as [|c cached IH]; intros current t Ht Hstrict Hun.
  - cbn [gaps_from]. destruct (dt_lt current (end_ target)) eqn:E.
    + exists (mkDateRange current (end_ target)). split; [left; reflexivity|].
      unfold covers. cbn [start end_]. lia.
    + unfold dt_lt in E. apply Z.ltb_ge in E. lia.
  - cbn [gaps_from].
    assert (Hc : ~ covers c t).
    { intro H. apply Hun. apply covered_cons. left. exact H. }
    assert (Hrest : ~ covered cached t).
    { intro H. apply Hun. apply covered_cons. right. exact H. }
    unfold covers in Hc.
    destruct (Z_lt_le_dec t (instant (start c))) as [Hlt|Hge].
    + exists (mkDateRange current (start c)). split.
      * apply in_or_app. left.
        assert (E : dt_lt current (start c) = true) by (apply dt_lt_iff; lia).
        rewrite E. left. reflexivity.
      * unfold covers. cbn [start end_]. lia.
    + destruct (IH (dt_max current (end_ c)) t) as (g & Hin & Hg).
      * rewrite instant_dt_max. lia.
      * rewrite instant_dt_max. lia.
      * exact Hrest.
      * exists g. split; [apply in_or_app; right; exact Hin | exact Hg].
Qed.

(** X1. The gaps of a target of positive length, over a canonical cover none
    of whose intervals starts after the end of the target: each gap lies
    within the target, the gaps are in ascending order and do not cross,
    no instant strictly inside a gap is cached, and every instant of the
    target that is not cached lies in a gap. *)
Lemma find_missing_ranges_complement (self : Database) (target : DateRange) :
  canonical_cover (get_cached_ranges self) ->
  instant (start target) < instant (end_ target) ->
  (forall c, In c (get_cached_ranges self) ->
             instant (start c) <= instant (end_ target)) ->
  let gaps := find_missing_ranges self target in
  Forall (fun g => instant (start target) <= instant (start g)
                   /\ instant (start g) <= instant (end_ g)
                   /\ instant (end_ g) <= instant (end_ target)) gaps
  /\ Sorted gap_before gaps
  /\ (forall g t, In g gaps -> instant (start g) < t < instant (end_ g) ->
                  ~ covered (get_cached_ranges self) t)
  /\ (forall t, covers target t -> ~ covered (get_cached_ranges self) t ->
                exists g, In g gaps /\ covers g t).
Proof.
  intros Hcan Hpos Hstarts gaps. subst gaps.
  rewrite find_missing_ranges_gaps_from.
  destruct (get_cached_ranges self) as [|c cached] eqn:E.
  - split; [|split; [|split]].
    + constructor; [|constructor]. lia.
    + repeat constructor.
    + intros g t _ _. apply covered_nil.
    + intros t Ht _. exists target. split; [left; reflexivity | exact Ht].
  - pose proof (canonical_separated _ Hcan) as Hsep.
    split; [|split; [|split]].
    + pose proof (gaps_from_lower target (c :: cached) (start target)) as Hl.
      pose proof (gaps_from_upper target (c :: cached) (start target) Hstarts)
        as Hu.
      apply Forall_forall. intros g Hg.
      eapply Forall_forall in Hl; [|exact Hg].
      eapply Forall_forall in Hu; [|exact Hg]. cbv beta in Hl, Hu. lia.
    + apply gaps_from_sorted. apply canonical_cover_wf, Hcan.
    + intros g t Hg Ht. eapply gaps_from_uncovered; eassumption.
    + intros t Ht Hun. unfold covers in Ht.
      apply gaps_from_complete; [lia | lia | exact Hun].
Qed.

(* ================================================================= *)
(** ** Fetching headers *)

Lemma pair_induction {A} (P : list A -> Prop) :
  P [] -> (forall x, P [x]) -> (forall x y l, P l -> P (x :: y :: l)) ->
  forall l, P l.
Proof.
  intros H0 H1 H2.
  assert (Hboth : forall l, P l /\ forall x, P (x :: l)).
  { induction l as [|y l [IH1 IH2]]; split; auto. }
  intro l. apply Hboth.
Qed.

Lemma truthy_str_true (s : string) : truthy s = true <-> s <> EmptyString.
Proof.
  unfold truthy, truthy_str. destruct s; cbn; split; congruence.
Qed.

Lemma only_ticks_refl w : only_ticks w w.
Proof. exists (ticks w). destruct w; reflexivity. Qed.

Lemma only_ticks_trans w1 w2 w3 :
  only_ticks w1 w2 -> only_ticks w2 w3 -> only_ticks w1 w3.
Proof. intros [n ->] [m ->]. exists m. reflexivity. Qed.

Lemma only_ticks_now w : only_ticks w (snd (pendulum_now w)).
Proof. exists (S (ticks w)). reflexivity. Qed.

Section Fetching.
Context `{Runtime}.

Lemma parse_date_total (date_str : option string) (w : World) :
  exists d w', _parse_date date_str w = (Return d, w') /\ only_ticks w w'.
Proof.
  unfold _parse_date.
  destruct (negb (truthy date_str)).
  { do 2 eexists. split; [reflexivity | apply only_ticks_now]. }
  destruct date_str as [s|].
  2:{ do 2 eexists. split; [reflexivity | apply only_ticks_now]. }
  destruct (parsedate_to_datetime s) as [dt|].
  2:{ do 2 eexists. split; [reflexivity | apply only_ticks_now]. }
  destruct (tzinfo dt);
    do 2 eexists; (split; [reflexivity | apply only_ticks_refl]).
Qed.

Lemma parse_metadata_spec (header : Message) (w : World) :
  exists r w',
    parse_metadata header w = (Return r, w') /\ only_ticks w w'
    /\ (acceptable header = false -> r = None)
    /\ (acceptable header = true ->
        exists e, r = Some e /\ drop_date e = fields_of header).
Proof.
  unfold parse_metadata, bind.
  destruct (parse_date_total (msg_get "Date" header) w) as (d & w' & E & Ht).
  rewrite E. unfold acceptable, all. cbn [forallb].
  unfold truthy at 3. unfold truthy_datetime. rewrite !andb_true_r.
  destruct (truthy (strip (msg_get_default "Message-ID" EmptyString header))
            && truthy (_decode_header (msg_get_default "From" EmptyString header)))
    eqn:Ea; unfold ret.
  - do 2 eexists. split; [reflexivity|]. split; [exact Ht|].
    split; [discriminate|]. intros _. eexists. split; reflexivity.
  - do 2 eexists. split; [reflexivity|]. split; [exact Ht|].
    split; [reflexivity | discriminate].
Qed.

Lemma acceptable_required_fields (header : Message) (e : EmailMetadata) :
  acceptable header = true -> drop_date e = fields_of header ->
  has_required_fields e.
Proof.
  unfold acceptable, drop_date, fields_of. intros Ha Hf.
  apply andb_true_iff in Ha. destruct Ha as [Hm Hfrom].
  injection Hf as E1 E2 _ _. unfold has_required_fields.
  rewrite E1, E2. split; apply truthy_str_true; assumption.
Qed.

(** The loop body on a usable item: it never raises, and appends the
    record of the message exactly when the message is acceptable. *)
Lemma process_item_usable (item : fetch_item) (emails_ : list EmailMetadata)
  (w : World) :
  usable_slot item ->
  exists l' w',
    process_item item emails_ w = (Return (emails_ ++ l'), w')
    /\ only_ticks w w'
    /\ map drop_date l'
       = map fields_of
           (filter acceptable
                   (match item with FTuple _ literal => [literal] | _ => [] end)).
Proof.
  intro Hu. unfold process_item.
  destruct item as [|line|envelope literal].
  - exists [], w. rewrite app_nil_r. cbn.
    split; [reflexivity|]. split; [apply only_ticks_refl | reflexivity].
  - cbn in Hu. subst line. exists [], w. rewrite app_nil_r. cbn.
    split; [reflexivity|]. split; [apply only_ticks_refl | reflexivity].
  - cbn [truthy truthy_fetch_item negb literal_of]. unfold bind, lift, ret.
    destruct (parse_metadata_spec literal w) as (r & w' & E & Ht & Hno & Hyes).
    rewrite E. cbn [filter].
    destruct (acceptable literal) eqn:Ea.
    + destruct (Hyes eq_refl) as (e & -> & Hf).
      exists [e], w'. split; [reflexivity|]. split; [exact Ht|].
      cbn [map]. rewrite Hf. reflexivity.
    + rewrite (Hno eq_refl). exists [], w'. rewrite app_nil_r.
      split; [reflexivity|]. split; [exact Ht | reflexivity].
Qed.

Lemma process_header_data_paired (header_data : list fetch_item) :
  forall emails_ w,
    paired header_data ->
    exists l' w',
      process_header_data header_data emails_ w = (Return (emails_ ++ l'), w')
      /\ only_ticks w w'
      /\ map drop_date l'
         = map fields_of (filter acceptable (present_headers header_data)).
Proof.
  induction header_data as [|x|x y l IH] using pair_induction;
    intros emails_ w Hp.
  - exists [], w. rewrite app_nil_r.
    split; [reflexivity|]. split; [apply only_ticks_refl | reflexivity].
  - destruct Hp as [Hu _].
    destruct (process_item_usable x emails_ w Hu) as (l' & w' & E & Ht & Hm).
    exists l', w'. cbn [process_header_data present_headers]. unfold bind.
    rewrite E, app_nil_r. split; [reflexivity|]. split; assumption.
  - destruct Hp as [Hu Hp].
    destruct (process_item_usable x emails_ w Hu) as (l1 & w1 & E1 & Ht1 & Hm1).
    destruct (IH (emails_ ++ l1) w1 Hp) as (l2 & w2 & E2 & Ht2 & Hm2).
    exists (l1 ++ l2), w2.
    cbn [process_header_data present_headers]. unfold bind. rewrite E1, E2.
    rewrite app_assoc. split; [reflexivity|].
    split; [eapply only_ticks_trans; eassumption|].
    rewrite filter_app, !map_app, Hm1, Hm2. reflexivity.
Qed.

(** Whatever the layout, a record the loop returns has both fields. *)
Lemma process_item_required_fields (item : fetch_item)
  (emails_ l : list EmailMetadata) (w w' : World) :
  process_item item emails_ w = (Return l, w') ->
  Forall has_required_fields emails_ -> Forall has_required_fields l.
Proof.
  unfold process_item. intros E Hall.
  destruct (negb (truthy item)).
  { injection E as <- _. exact Hall. }
  unfold bind, lift, ret in E.
  destruct (literal_of item) as [header|err]; [|discriminate].
  destruct (parse_metadata_spec header w) as (r & w1 & E1 & _ & Hno & Hyes).
  rewrite E1 in E. injection E as <- _.
  destruct (acceptable header) eqn:Ea.
  - destruct (Hyes eq_refl) as (e & -> & Hf).
    apply Forall_app. split; [exact Hall|]. constructor; [|constructor].
    eapply acceptable_required_fields; eassumption.
  - rewrite (Hno eq_refl). exact Hall.
Qed.

Lemma process_header_data_required_fields (header_data : list fetch_item) :
  forall emails_ l w w',
    process_header_data header_data emails_ w = (Return l, w') ->
    Forall has_required_fields emails_ -> Forall has_required_fields l.
Proof.
  induction header_data as [|x|x y rest IH] using pair_induction;
    intros emails_ l w w' E Hall.
  - injection E as <- _. exact Hall.
  - cbn [process_header_data] in E. unfold bind in E.
    destruct (process_item x emails_ w) as [[l1|err] w1] eqn:E1; [|discriminate].
    injection E as <- _. eapply process_item_required_fields; eassumption.
  - cbn [process_header_data] in E. unfold bind in E.
    destruct (process_item x emails_ w) as [[l1|err] w1] eqn:E1; [|discriminate].
    eapply IH; [exact E|].
    eapply process_item_required_fields; eassumption.
Qed.

End Fetching.

Lemma only_ticks_db w w' : only_ticks w w' -> db w' = db w.
Proof. intros [n ->]. reflexivity. Qed.

Section FetchingEmails.
Context `{Runtime}.

Lemma fetch_batches_paired (conn : IMAP4) (bs : list (list string)) :
  forall emails_ w,
    (forall batch, In batch bs ->
       exists header_data,
         imap_fetch conn (String.concat "," batch) = Return header_data
         /\ paired header_data) ->
    exists l' w',
      fetch_batches conn bs emails_ w = (Return (emails_ ++ l'), w')
      /\ db w' = db w
      /\ map drop_date l'
         = map fields_of
             (filter acceptable
                (flat_map (fun b => present_headers (fetched conn b)) bs)).
Proof.
  induction bs as [|batch bs IH]; intros emails_ w Hok.
  - exists [], w. rewrite app_nil_r. repeat split.
  - destruct (Hok batch (or_introl eq_refl)) as (hd & Ef & Hp).
    cbn [fetch_batches flat_map]. unfold bind, send, lift. rewrite Ef.
    match goal with
    | |- context [process_header_data hd emails_ ?w1] =>
        destruct (process_header_data_paired hd emails_ w1 Hp)
          as (l1 & w2 & E1 & Ht & Hm1)
    end.
    rewrite E1.
    destruct (IH (emails_ ++ l1) w2) as (l2 & w3 & E2 & Hdb & Hm2).
    { intros b Hb. apply Hok. right. exact Hb. }
    exists (l1 ++ l2), w3. rewrite E2, app_assoc.
    split; [reflexivity|]. split.
    + rewrite Hdb. apply only_ticks_db in Ht. rewrite Ht. reflexivity.
    + unfold fetched at 1. rewrite Ef.
      rewrite filter_app, !map_app, Hm1, Hm2. reflexivity.
Qed.

Lemma fetch_batches_required_fields (conn : IMAP4) (bs : list (list string)) :
  forall emails_ l w w',
    fetch_batches conn bs emails_ w = (Return l, w') ->
    Forall has_required_fields emails_ -> Forall has_required_fields l.
Proof.
  induction bs as [|batch bs IH]; intros emails_ l w w' E Hall.
  - injection E as <- _. exact Hall.
  - cbn [fetch_batches] in E. unfold bind, send, lift in E.
    destruct (imap_fetch conn (String.concat "," batch)) as [hd|err];
      [|discriminate].
    match type of E with
    | context [process_header_data hd emails_ ?w1] =>
        destruct (process_header_data hd emails_ w1) as [[l1|err] w2] eqn:E1
    end; [|discriminate].
    eapply IH; [exact E|].
    eapply process_header_data_required_fields; eassumption.
Qed.

Lemma get_connection_db (w : World) :
  exists oc w', _get_connection w = (Return oc, w') /\ db w' = db w.
Proof.
  unfold _get_connection. destruct (connection_pool w) as [|c rest].
  - do 2 eexists. split; reflexivity.
  - do 2 eexists. split; reflexivity.
Qed.



End FetchingEmails.


(** The scenario of the specification: three identifiers, nothing
    retrieved for the second; two records come back and nothing is
    raised. The first keeps the offset of its Date header, the second
    has no Date header and gets the current time. *)
Example fetch_emails_three_identifiers_one_absent :
  fst (fetch_emails year_2024 (world_of empty_db (Some three_message_server) []))
  = Return
      [mkEmail "<m1@example.com>" "alice@example.com" "hello"
               (mkDateTime 2024 1 5 10 0 0 0 300)
               (Some "https://mail.google.com/mail/u/0/#search/subject%3A%22hello%22");
       mkEmail "<m3@example.com>" "bob@example.com" "(No Subject)"
               (june_clock 0)
               (Some "https://mail.google.com/mail/u/0/#search/subject%3A%22%28No%20Subject%29%22")].
Proof. vm_compute. reflexivity. Qed.


(** With items out of step (nothing at all in the place of the second
    message) the loop reaches a bare line at an even index and the
    whole fetch raises: the layout assumed above is needed. *)
Example process_header_data_out_of_step :
  fst (process_header_data
         [FTuple "1" message_1; FBytes ")"; FNone;
          FTuple "3" message_3; FBytes ")"] []
         (world_of empty_db None []))
  = Raise IndexError.
Proof. vm_compute. reflexivity. Qed.

(* ================================================================= *)
(** ** Where the pattern is validated *)

Section Validation.
Context `{Runtime}.

Lemma read_pattern_compiles (lines : list string) :
  forall p rest,
    read_pattern lines = (Return (Some p), rest) -> re_compile p <> None.
Proof.
  induction lines as [|line lines IH]; intros p rest E; cbn [read_pattern] in E.
  - discriminate.
  - destruct (String.eqb (lower line) "exit"); [discriminate|].
    destruct (re_compile line) as [r|] eqn:Ec.
    + injection E as <- _. rewrite Ec. discriminate.
    + eapply IH. exact E.
Qed.

Lemma get_search_parameters_skips_invalid (p : string) (rest : list string)
  (w : World) :
  re_compile p = None -> String.eqb (lower p) "exit" = false ->
  get_search_parameters (with_stdin (p :: rest) w)
  = get_search_parameters (with_stdin rest w).
Proof.
  intros Ec Ex. unfold get_search_parameters, bind, with_stdin, set_stdin.
  cbn [snd stdin read_pattern]. rewrite Ex, Ec. reflexivity.
Qed.

Lemma search_world_ignores_pattern (p q : string) (days_back : option Z)
  (w : World) :
  snd (search p days_back w) = snd (search q days_back w).
Proof.
  unfold search, bind, get_db, lift, ret.
  destruct (pendulum_now w) as [[end_date|err] w1]; [|reflexivity].
  match goal with
  | |- context [(if ?c then ?a else ?b) w1] =>
      destruct ((if c then a else b) w1) as [[u|err] w2]
  end; [|reflexivity].
  destruct (search_emails (db w2) p _), (search_emails (db w2) q _); reflexivity.
Qed.

(** C2, as the code is laid out. The pattern is validated by the
    prompt, not by [EmailSearchService.search]: a pattern the prompt
    returns always compiles; a line that does not compile is passed over
    before [search] is called, so that it causes no request to the mail
    server and never reaches the cache; and [search] itself sends the
    same requests and stores the same records whatever pattern it is
    given, the pattern being used for the first time by
    [search_emails]. *)
Theorem pattern_is_validated_by_the_prompt :
  (forall lines p rest,
     read_pattern lines = (Return (Some p), rest) -> re_compile p <> None)
  /\ (forall p rest w,
        re_compile p = None -> String.eqb (lower p) "exit" = false ->
        handle_search (with_stdin (p :: rest) w)
        = handle_search (with_stdin rest w))
  /\ (forall p q days_back w,
        snd (search p days_back w) = snd (search q days_back w)).
Proof.
  split; [exact read_pattern_compiles|]. split.
  - intros p rest w Ec Ex. unfold handle_search, try_except, bind.
    rewrite (get_search_parameters_skips_invalid p rest w Ec Ex). reflexivity.
  - exact search_world_ignores_pattern.
Qed.

End Validation.

Lemma pattern_is_validated_by_the_prompt_witness :
  let w := world_of empty_db (Some one_message_server) [] in
  re_compile "(" = None
  /\ String.eqb (lower "(") "exit" = false
  /\ handle_search (with_stdin ["("; "exit"] w)
     = handle_search (with_stdin ["exit"] w)
  /\ net_log (snd (handle_search (with_stdin ["("; "exit"] w))) = []
  /\ read_pattern ["("; "alice"; "7"] = (Return (Some "alice"), ["7"])
  /\ re_compile "alice" <> None.
Proof.
  intro w.
  destruct (pattern_is_validated_by_the_prompt (H := plain_runtime))
    as (Hvalid & Hskip & _).
  assert (Ec : re_compile "(" = None) by reflexivity.
  assert (Ex : String.eqb (lower "(") "exit" = false) by reflexivity.
  assert (Er : read_pattern ["("; "alice"; "7"] = (Return (Some "alice"), ["7"]))
    by reflexivity.
  split; [exact Ec|]. split; [exact Ex|].
  split; [exact (Hskip "(" ["exit"] w Ec Ex)|].
  split; [rewrite (Hskip "(" ["exit"] w Ec Ex); vm_compute; reflexivity|].
  split; [exact Er|].
  exact (Hvalid _ _ _ Er).
Defined.

(** C2, as stated, fails. Called with the pattern "(", which does not
    compile, on an empty cache, [search] first asks the server for the
    messages of the window and fetches their headers, stores the record,
    and only then fails, inside the query of [search_emails]. *)
Lemma search_fetches_before_it_uses_the_pattern :
  let w := world_of empty_db (Some one_message_server) [] in
  re_compile "(" = None
  /\ net_log (snd (search "(" None w))
     = [NetSearch (2023, 6, 1) (2024, 6, 2); NetFetch "1"]
  /\ map (fun r => message_id (row_email r)) (emails (db (snd (search "(" None w))))
     = ["<m1@example.com>"]
  /\ fst (search "(" None w)
     = Raise (OperationalError "user-defined function raised exception").
Proof. vm_compute. repeat split. Qed.

(* ================================================================= *)
(** ** Stored text and instants *)

Lemma days_from_civil_split y m d :
  days_from_civil y m d = march_days (march_year y m) + day_of_march_year m d.
Proof. unfold days_from_civil, march_days, march_year, day_of_march_year. lia. Qed.

Lemma march_days_step Y :
  march_days (Y + 1) - march_days Y = 365 + (if is_leap (Y + 1) then 1 else 0).
Proof.
  unfold march_days, is_leap.
  destruct ((Y + 1) mod 4 =? 0) eqn:E4;
  destruct ((Y + 1) mod 100 =? 0) eqn:E100;
  destruct ((Y + 1) mod 400 =? 0) eqn:E400; cbn [andb orb negb];
  rewrite ?Z.eqb_eq, ?Z.eqb_neq in *;
  Z.div_mod_to_equations; lia.
Qed.

Lemma march_days_mono Y1 Y2 : Y1 <= Y2 -> march_days Y1 <= march_days Y2.
Proof.
  intro Hle. replace Y2 with (Y1 + (Y2 - Y1)) by lia.
  assert (Hk : 0 <= Y2 - Y1) by lia. revert Hk.
  generalize (Y2 - Y1). clear Hle Y2. intros k.
  apply (natlike_ind (fun k => march_days Y1 <= march_days (Y1 + k))).
  - rewrite Z.add_0_r. lia.
  - intros x Hx IH. pose proof (march_days_step (Y1 + x)) as Hs.
    replace (Y1 + Z.succ x) with (Y1 + x + 1) by lia.
    destruct (is_leap (Y1 + x + 1)); lia.
Qed.

Ltac fix_month :=
  cbv [days_in_month Z.eqb Pos.eqb orb Z.leb Z.compare Pos.compare
       Pos.compare_cont] in *;
  repeat match goal with
         | |- context [(153 * ?e + 2) / 5] =>
             let v := eval vm_compute in ((153 * e + 2) / 5) in
             change ((153 * e + 2) / 5) with v
         end.

Ltac split_month m :=
  let E := fresh "E" in
  assert (E : m = 1 \/ m = 2 \/ m = 3 \/ m = 4 \/ m = 5 \/ m = 6 \/ m = 7
              \/ m = 8 \/ m = 9 \/ m = 10 \/ m = 11 \/ m = 12) by lia;
  repeat (destruct E as [->|E]); try subst m.

Lemma day_of_march_year_bounds y m d :
  valid_date y m d ->
  0 <= day_of_march_year m d
  /\ day_of_march_year m d
     < 365 + (if is_leap (march_year y m + 1) then 1 else 0)
  /\ (m <= 2 -> 306 <= day_of_march_year m d)
  /\ (2 < m -> day_of_march_year m d <= 305).
Proof.
  intros [Hm Hd]. unfold day_of_march_year, march_year in *.
  assert (Ey : forall b : bool, (if b then y - 1 else y) + 1
                                = if b then y else y + 1)
    by (intros []; lia).
  rewrite Ey.
  split_month m; fix_month;
    destruct (is_leap y); destruct (is_leap (y + 1)); lia.
Qed.

Lemma day_of_march_year_lt m1 d1 m2 d2 y1 y2 :
  valid_date y1 m1 d1 -> valid_date y2 m2 d2 ->
  (m1 <= 2 <-> m2 <= 2) ->
  m1 < m2 \/ (m1 = m2 /\ d1 < d2) ->
  day_of_march_year m1 d1 < day_of_march_year m2 d2.
Proof.
  intros [Hm1 Hd1] [Hm2 Hd2] Hside Hlt.
  unfold day_of_march_year in *.
  split_month m1; split_month m2; try lia; fix_month;
    destruct (is_leap y1); destruct (is_leap y2); lia.
Qed.

(** The day number orders valid dates as year, month and day do. *)
Lemma days_from_civil_lt y1 m1 d1 y2 m2 d2 :
  valid_date y1 m1 d1 -> valid_date y2 m2 d2 ->
  y1 < y2 \/ (y1 = y2 /\ (m1 < m2 \/ (m1 = m2 /\ d1 < d2))) ->
  days_from_civil y1 m1 d1 < days_from_civil y2 m2 d2.
Proof.
  intros V1 V2 Hlt. rewrite !days_from_civil_split.
  pose proof (day_of_march_year_bounds _ _ _ V1) as (L1 & U1 & Hi1 & Lo1).
  pose proof (day_of_march_year_bounds _ _ _ V2) as (L2 & U2 & Hi2 & Lo2).
  destruct (Z_lt_le_dec (march_year y1 m1) (march_year y2 m2)) as [HY|HY].
  - pose proof (march_days_step (march_year y1 m1)) as Hs.
    pose proof (march_days_mono (march_year y1 m1 + 1) (march_year y2 m2)) as Hm.
    lia.
  - assert (EY : march_year y1 m1 = march_year y2 m2).
    { unfold march_year in *.
      destruct (m1 <=? 2) eqn:E1, (m2 <=? 2) eqn:E2;
        rewrite ?Z.leb_le, ?Z.leb_gt in *; lia. }
    rewrite EY.
    unfold march_year in EY.
    destruct (m1 <=? 2) eqn:E1, (m2 <=? 2) eqn:E2;
      rewrite ?Z.leb_le, ?Z.leb_gt in *.
    + assert (day_of_march_year m1 d1 < day_of_march_year m2 d2).
      { eapply day_of_march_year_lt; eauto; lia. }
      lia.
    + lia.
    + lia.
    + assert (day_of_march_year m1 d1 < day_of_march_year m2 d2).
      { eapply day_of_march_year_lt; eauto; lia. }
      lia.
Qed.

Lemma ascii_compare_refl c : Ascii.compare c c = Eq.
Proof. unfold Ascii.compare. apply N.compare_refl. Qed.

Lemma string_compare_refl s : String.compare s s = Eq.
Proof.
  induction s as [|c s IH]; cbn [String.compare]; [reflexivity|].
  rewrite ascii_compare_refl. exact IH.
Qed.

Lemma string_compare_app x : forall y s t,
  String.length x = String.length y ->
  String.compare (x ++ s) (y ++ t)
  = match String.compare x y with
    | Eq => String.compare s t
    | c => c
    end.
Proof.
  induction x as [|c x IH]; intros [|d y] s t Hl; try discriminate.
  - reflexivity.
  - cbn [String.append String.compare].
    destruct (Ascii.compare c d); try reflexivity.
    apply IH. cbn in Hl. congruence.
Qed.

Lemma digit_compare a b :
  0 <= a < 10 -> 0 <= b < 10 ->
  Ascii.compare (digit a) (digit b) = (a ?= b).
Proof.
  intros Ha Hb.
  assert (Ea : a = 0 \/ a = 1 \/ a = 2 \/ a = 3 \/ a = 4 \/ a = 5 \/ a = 6
               \/ a = 7 \/ a = 8 \/ a = 9) by lia.
  assert (Eb : b = 0 \/ b = 1 \/ b = 2 \/ b = 3 \/ b = 4 \/ b = 5 \/ b = 6
               \/ b = 7 \/ b = 8 \/ b = 9) by lia.
  repeat (destruct Ea as [->|Ea]); try subst a;
    repeat (destruct Eb as [->|Eb]); try subst b; reflexivity.
Qed.

Lemma digit_mod n : digit (n mod 10) = digit n.
Proof. unfold digit. rewrite Z.mod_mod by lia. reflexivity. Qed.

Lemma string_length_app s : forall t,
  String.length (s ++ t) = (String.length s + String.length t)%nat.
Proof.
  induction s as [|c s IH]; intro t; cbn; [reflexivity|]. rewrite IH. reflexivity.
Qed.

Lemma pad_length k : forall n, String.length (pad k n) = k.
Proof.
  induction k as [|k IH]; intro n; cbn [pad]; [reflexivity|].
  rewrite string_length_app, IH. cbn. lia.
Qed.

Lemma compare_by_digits a b :
  (a ?= b) = match (a / 10 ?= b / 10) with
             | Eq => (a mod 10 ?= b mod 10)
             | c => c
             end.
Proof.
  destruct (Z.compare_spec (a / 10) (b / 10)) as [E|E|E].
  - destruct (Z.compare_spec (a mod 10) (b mod 10)) as [F|F|F].
    + apply Z.compare_eq_iff. Z.div_mod_to_equations. lia.
    + apply Z.compare_lt_iff. Z.div_mod_to_equations. lia.
    + apply Z.compare_gt_iff. Z.div_mod_to_equations. lia.
  - apply Z.compare_lt_iff. Z.div_mod_to_equations. lia.
  - apply Z.compare_gt_iff. Z.div_mod_to_equations. lia.
Qed.

Lemma pad_compare k : forall a b,
  0 <= a < 10 ^ Z.of_nat k -> 0 <= b < 10 ^ Z.of_nat k ->
  String.compare (pad k a) (pad k b) = (a ?= b).
Proof.
  induction k as [|k IH]; intros a b Ha Hb.
  - cbn in Ha, Hb. assert (a = 0) by lia. assert (b = 0) by lia. subst.
    reflexivity.
  - cbn [pad]. rewrite string_compare_app by (rewrite !pad_length; reflexivity).
    rewrite Nat2Z.inj_succ, Z.pow_succ_r in Ha, Hb by lia.
    rewrite IH by (split; [apply Z.div_pos; lia | apply Z.div_lt_upper_bound; lia]).
    rewrite (compare_by_digits a b).
    destruct (a / 10 ?= b / 10); try reflexivity.
    cbn [String.compare]. rewrite <- (digit_mod a), <- (digit_mod b).
    rewrite digit_compare by (apply Z.mod_pos_bound; lia).
    destruct (a mod 10 ?= b mod 10); reflexivity.
Qed.

Lemma string_compare_cons c s t :
  String.compare (String c s) (String c t) = String.compare s t.
Proof. cbn [String.compare]. rewrite ascii_compare_refl. reflexivity. Qed.

Lemma pad_then k a b s t :
  0 <= a < 10 ^ Z.of_nat k -> 0 <= b < 10 ^ Z.of_nat k ->
  String.compare (pad k a ++ s) (pad k b ++ t)
  = then_compare (a ?= b) (String.compare s t).
Proof.
  intros Ha Hb.
  rewrite string_compare_app by (rewrite !pad_length; reflexivity).
  rewrite pad_compare by assumption. destruct (a ?= b); reflexivity.
Qed.

Lemma fraction_compare (ua ub : Z) (o : string) (neg : bool) (rest : string) :
  0 <= ua < 1000000 -> 0 <= ub < 1000000 ->
  o = ((if neg then "-" else "+") ++ rest)%string ->
  String.compare
    ((if Z.eqb ua 0 then EmptyString else "." ++ pad 6 ua) ++ o)
    ((if Z.eqb ub 0 then EmptyString else "." ++ pad 6 ub) ++ o)
  = (ua ?= ub).
Proof.
  intros Ha Hb Ho.
  destruct (Z.eqb_spec ua 0) as [->|Na]; destruct (Z.eqb_spec ub 0) as [->|Nb].
  - cbn [String.append]. apply string_compare_refl.
  - cbn [String.append]. subst o.
    assert ((0 ?= ub) = Lt) as -> by (apply Z.compare_lt_iff; lia).
    destruct neg; reflexivity.
  - cbn [String.append]. subst o.
    assert ((ua ?= 0) = Gt) as -> by (apply Z.compare_gt_iff; lia).
    destruct neg; reflexivity.
  - cbn [String.append]. rewrite string_compare_cons.
    rewrite pad_then by (cbn; lia).
    rewrite string_compare_refl. destruct (ua ?= ub); reflexivity.
Qed.

Lemma isoformat_compare a b :
  valid_datetime a -> valid_datetime b -> utcoffset a = utcoffset b ->
  String.compare (isoformat a) (isoformat b) = fields_compare a b.
Proof.
  intros (Hy & (Hm & Hd) & Hh & Hmi & Hs & Hu)
         (Hy' & (Hm' & Hd') & Hh' & Hmi' & Hs' & Hu') Eo.
  assert (Hd31 : 1 <= day a <= 31).
  { unfold days_in_month in Hd.
    destruct (month a =? 2); [destruct (is_leap (year a))|
      destruct ((month a =? 4) || (month a =? 6) || (month a =? 9)
                || (month a =? 11))]; lia. }
  assert (Hd31' : 1 <= day b <= 31).
  { unfold days_in_month in Hd'.
    destruct (month b =? 2); [destruct (is_leap (year b))|
      destruct ((month b =? 4) || (month b =? 6) || (month b =? 9)
                || (month b =? 11))]; lia. }
  unfold isoformat, fields_compare. rewrite <- Eo.
  rewrite pad_then by (cbn; lia). f_equal.
  cbn [String.append]. rewrite string_compare_cons.
  rewrite pad_then by (cbn; lia). f_equal.
  cbn [String.append]. rewrite string_compare_cons.
  rewrite pad_then by (cbn; lia). f_equal.
  cbn [String.append]. rewrite string_compare_cons.
  rewrite pad_then by (cbn; lia). f_equal.
  cbn [String.append]. rewrite string_compare_cons.
  rewrite pad_then by (cbn; lia). f_equal.
  cbn [String.append]. rewrite string_compare_cons.
  rewrite pad_then by (cbn; lia). f_equal.
  eapply (fraction_compare _ _ _ (utcoffset a <? 0)); [assumption..|reflexivity].
Qed.

Lemma days_from_civil_compare y1 m1 d1 y2 m2 d2 :
  valid_date y1 m1 d1 -> valid_date y2 m2 d2 ->
  (days_from_civil y1 m1 d1 ?= days_from_civil y2 m2 d2)
  = then_compare (y1 ?= y2) (then_compare (m1 ?= m2) (d1 ?= d2)).
Proof.
  intros V1 V2.
  destruct (Z.compare_spec y1 y2) as [Ey|Ly|Ly]; cbn [then_compare].
  - subst y2.
    destruct (Z.compare_spec m1 m2) as [Em|Lm|Lm]; cbn [then_compare].
    + subst m2.
      destruct (Z.compare_spec d1 d2) as [Ed|Ld|Ld].
      * subst d2. apply Z.compare_refl.
      * apply Z.compare_lt_iff. apply days_from_civil_lt; auto.
      * apply Z.compare_gt_iff. apply days_from_civil_lt; auto.
    + apply Z.compare_lt_iff. apply days_from_civil_lt; auto.
    + apply Z.compare_gt_iff. apply days_from_civil_lt; auto.
  - apply Z.compare_lt_iff. apply days_from_civil_lt; auto.
  - apply Z.compare_gt_iff. apply days_from_civil_lt; auto.
Qed.

Lemma instant_compare a b :
  valid_datetime a -> valid_datetime b -> utcoffset a = utcoffset b ->
  (instant a ?= instant b) = fields_compare a b.
Proof.
  intros (Hy & Hv & Hh & Hmi & Hs & Hu) (Hy' & Hv' & Hh' & Hmi' & Hs' & Hu') Eo.
  unfold fields_compare.
  pose proof (days_from_civil_compare _ _ _ _ _ _ Hv Hv') as Hd.
  unfold instant. rewrite <- Eo.
  set (Da := days_from_civil (year a) (month a) (day a)) in *.
  set (Db := days_from_civil (year b) (month b) (day b)) in *.
  assert (Hgen : ((Da * 86400 + hour a * 3600 + minute a * 60 + second a
                   - utcoffset a * 60) * 1000000 + microsecond a
                  ?= (Db * 86400 + hour b * 3600 + minute b * 60 + second b
                      - utcoffset a * 60) * 1000000 + microsecond b)
                 = then_compare (Da ?= Db)
                   (then_compare (hour a ?= hour b)
                   (then_compare (minute a ?= minute b)
                   (then_compare (second a ?= second b)
                                 (microsecond a ?= microsecond b))))).
  { destruct (Z.compare_spec Da Db); cbn [then_compare];
      [destruct (Z.compare_spec (hour a) (hour b)); cbn [then_compare];
       [destruct (Z.compare_spec (minute a) (minute b)); cbn [then_compare];
        [destruct (Z.compare_spec (second a) (second b)); cbn [then_compare];
         [destruct (Z.compare_spec (microsecond a) (microsecond b))|..]|..]|..]
      |..];
      first [apply Z.compare_eq_iff; lia
            |apply Z.compare_lt_iff; lia
            |apply Z.compare_gt_iff; lia]. }
  rewrite Hgen, Hd.
  destruct (year a ?= year b), (month a ?= month b), (day a ?= day b);
    reflexivity.
Qed.

(** For valid datetimes that carry the same offset, the stored texts
    order as the instants do. *)
Lemma text_order_same_offset a b :
  valid_datetime a -> valid_datetime b -> utcoffset a = utcoffset b ->
  text_lt (isoformat a) (isoformat b) = dt_lt a b
  /\ text_le (isoformat a) (isoformat b) = dt_le a b.
Proof.
  intros Va Vb Eo.
  pose proof (isoformat_compare a b Va Vb Eo) as Ht.
  pose proof (instant_compare a b Va Vb Eo) as Hi.
  unfold text_lt, text_le, String.ltb, String.leb, dt_lt, dt_le, Z.ltb, Z.leb.
  rewrite Ht, Hi. split; reflexivity.
Qed.

(* ================================================================= *)
(** ** Searching and trimming compare stored text *)

Lemma select_where_total {A} (p : A -> outcome bool) (f : A -> bool)
  (rows : list A) :
  (forall r, In r rows -> p r = Return (f r)) ->
  select_where p rows = Return (filter f rows).
Proof.
  induction rows as [|r rows IH]; intro Hp; cbn [select_where filter].
  - reflexivity.
  - rewrite (Hp r (or_introl eq_refl)), IH.
    + reflexivity.
    + intros r' Hr'. apply Hp. right. exact Hr'.
Qed.

(** With a pattern that compiles, [search_emails] returns the rows whose
    sender contains a match and, when a window is given, whose stored
    date text lies between the texts of the two ends of the window, both
    included. No other column is consulted. *)
Lemma search_emails_filters `{Runtime} (self : Database) (pattern : string)
  (date_range : option DateRange) (rx : regex) :
  re_compile pattern = Some rx ->
  search_emails self pattern date_range
  = Return
      (map row_email
         (filter
            (fun r =>
               regex_search rx (from_address (row_email r))
               && match date_range with
                  | None => true
                  | Some dr =>
                      text_le (isoformat (start dr))
                              (isoformat (date (row_email r)))
                      && text_le (isoformat (date (row_email r)))
                                 (isoformat (end_ dr))
                  end)
            (emails self))).
Proof.
  intro Ec. unfold search_emails.
  erewrite select_where_total; [reflexivity|].
  intros r _. unfold where_clause, REGEXP, re_search. rewrite Ec.
  destruct (regex_search rx (from_address (row_email r))); cbn [andb];
    destruct date_range; reflexivity.
Qed.

(** C6 at its failing input. The window runs from 06:00 UTC on 5 January
    to midnight. The first record was sent at 05:00 UTC, before the
    window, with the offset +05:00; the second was sent at 06:00 UTC, the
    very start of the window, with the offset -05:00. The query compares
    the stored texts and returns the first and not the second. *)
Theorem search_emails_compares_date_text :
  let window := mkDateRange (utc 2024 1 5 6 0 0) (utc 2024 1 6 0 0 0) in
  let self := mkDatabase [mkRow mail_0500_utc (june_clock 0);
                          mkRow mail_0600_utc (june_clock 0)] [] in
  instant (date mail_0500_utc) < instant (start window)
  /\ instant (date mail_0600_utc) = instant (start window)
  /\ isoformat (date mail_0500_utc) = "2024-01-05T10:00:00+05:00"
  /\ isoformat (date mail_0600_utc) = "2024-01-05T01:00:00-05:00"
  /\ isoformat (start window) = "2024-01-05T06:00:00+00:00"
  /\ search_emails self "alice" (Some window) = Return [mail_0500_utc].
Proof.
  intros window self.
  split; [apply Z.ltb_lt; vm_compute; reflexivity|].
  split; [vm_compute; reflexivity|].
  repeat split; vm_compute; reflexivity.
Qed.

Lemma filter_map_commute {A} (f : A -> A) (p : A -> bool) (l : list A) :
  (forall x, p (f x) = p x) ->
  filter p (map f l) = map f (filter p l).
Proof.
  intro Hp. induction l as [|x l IH]; cbn [map filter]; [reflexivity|].
  rewrite Hp. destruct (p x); cbn [map]; rewrite IH; reflexivity.
Qed.

(** When the text of every stored value orders it against the cutoff as
    its instant does, the three statements of the retention pass delete
    the records dated before the cutoff, remove the intervals that end
    before it, raise to the cutoff the start of the intervals that start
    before it, and leave the other intervals as they are. *)
Lemma trim_when_text_agrees (cutoff : DateTime) (conn : Database) :
  (forall row, In row (emails conn) ->
               text_agrees cutoff (date (row_email row))) ->
  (forall r, In r (date_ranges conn) ->
             text_agrees cutoff (start r) /\ text_agrees cutoff (end_ r)) ->
  emails (trim cutoff conn)
  = filter (fun row => negb (dt_lt (date (row_email row)) cutoff)) (emails conn)
  /\ date_ranges (trim cutoff conn)
     = map (fun r => if dt_lt (start r) cutoff
                     then mkDateRange cutoff (end_ r) else r)
           (filter (fun r => negb (dt_lt (end_ r) cutoff)) (date_ranges conn)).
Proof.
  intros He Hr. unfold trim. cbn [emails date_ranges]. split.
  - unfold delete_old_emails. apply filter_ext_in. intros row Hrow.
    rewrite (He row Hrow). reflexivity.
  - unfold delete_outdated_ranges, raise_starts.
    rewrite filter_map_commute.
    + rewrite (filter_ext_in _ (fun r => negb (dt_lt (end_ r) cutoff))).
      * apply map_ext_in. intros r Hin. apply filter_In in Hin.
        destruct Hin as [Hin _]. destruct (Hr r Hin) as [Hs _].
        rewrite Hs. reflexivity.
      * intros r Hin. destruct (Hr r Hin) as [_ Hn]. rewrite Hn. reflexivity.
    + intro r. destruct (text_lt (isoformat (start r)) (isoformat cutoff));
        reflexivity.
Qed.

(** C7 at its failing input. With 148 days to keep on 1 June 2024 the
    cutoff is 12:00 UTC on 5 January. The first record was sent at 09:00
    UTC, before the cutoff, with the offset +05:00; the second at 15:00
    UTC, after it, with the offset -05:00. The DELETE compares the stored
    texts: it keeps the first and deletes the second. *)
Theorem cleanup_old_data_compares_date_text :
  let w := world_of (mkDatabase [mkRow mail_0900_utc (june_clock 0);
                                 mkRow mail_1500_utc (june_clock 0)] [])
                    None [] in
  let cutoff := add_days (june_clock 0) (- 148) in
  isoformat cutoff = "2024-01-05T12:00:00+00:00"
  /\ isoformat (date mail_0900_utc) = "2024-01-05T14:00:00+05:00"
  /\ isoformat (date mail_1500_utc) = "2024-01-05T10:00:00-05:00"
  /\ instant (date mail_0900_utc) < instant cutoff
  /\ instant cutoff <= instant (date mail_1500_utc)
  /\ map row_email (emails (db (snd (cleanup_old_data 148 w))))
     = [mail_0900_utc].
Proof.
  intros w cutoff.
  split; [vm_compute; reflexivity|].
  split; [vm_compute; reflexivity|].
  split; [vm_compute; reflexivity|].
  split; [apply Z.ltb_lt; vm_compute; reflexivity|].
  split; [apply Z.leb_le; vm_compute; reflexivity|].
  vm_compute. reflexivity.
Qed.

(** Such rows are what the program itself stores: a search over a
    mailbox whose message carries the header
    "Date: Fri, 05 Jan 2024 10:00:00 +0500" caches the date with that
    offset, next to a window written in UTC. *)
Example search_stores_the_offset_of_the_sender :
  map (fun r => isoformat (date (row_email r)))
      (emails (db (snd (search "alice" None
                          (world_of empty_db (Some one_message_server) [])))))
  = ["2024-01-05T10:00:00+05:00"]
  /\ map (fun r => (isoformat (start r), isoformat (end_ r)))
         (date_ranges (db (snd (search "alice" None
                                  (world_of empty_db (Some one_message_server) [])))))
     = [("2023-06-01T12:00:00+00:00", "2024-06-01T12:00:00+00:00")].
Proof. vm_compute. split; reflexivity. Qed.

(* ================================================================= *)
(** ** When every stored date carries the offset of the bound *)


(** With a valid cutoff and stored values that carry its offset, the
    retention pass deletes exactly the records dated before the cutoff,
    removes the intervals that end before it, raises to the cutoff the
    start of the intervals that start before it and end at or after it,
    and leaves the other intervals as they are. *)
Lemma trim_same_offset (cutoff : DateTime) (conn : Database) :
  valid_datetime cutoff ->
  (forall row, In row (emails conn) ->
     valid_datetime (date (row_email row))
     /\ utcoffset (date (row_email row)) = utcoffset cutoff) ->
  (forall r, In r (date_ranges conn) ->
     valid_datetime (start r) /\ utcoffset (start r) = utcoffset cutoff
     /\ valid_datetime (end_ r) /\ utcoffset (end_ r) = utcoffset cutoff) ->
  emails (trim cutoff conn)
  = filter (fun row => negb (dt_lt (date (row_email row)) cutoff)) (emails conn)
  /\ date_ranges (trim cutoff conn)
     = map (fun r => if dt_lt (start r) cutoff
                     then mkDateRange cutoff (end_ r) else r)
           (filter (fun r => negb (dt_lt (end_ r) cutoff)) (date_ranges conn)).
Proof.
  intros Vc Hrows Hranges. apply trim_when_text_agrees.
  - intros row Hin. destruct (Hrows row Hin) as [V E].
    apply text_order_same_offset; assumption.
  - intros r Hin. destruct (Hranges r Hin) as (Vs & Es & Ve & Ee).
    split; apply text_order_same_offset; assumption.
Qed.

(* ================================================================= *)
(** * Further properties *)

(** ** Gaps and merging *)

Lemma find_missing_ranges_complement_witness :
  let target := mkDateRange (jan 5) (jan 25) in
  canonical_cover (get_cached_ranges db_jan_10_20)
  /\ instant (start target) < instant (end_ target)
  /\ find_missing_ranges db_jan_10_20 target
     = [mkDateRange (jan 5) (jan 10); mkDateRange (jan 20) (jan 25)]
  /\ Forall (fun g => instant (start target) <= instant (start g)
                      /\ instant (start g) <= instant (end_ g)
                      /\ instant (end_ g) <= instant (end_ target))
            (find_missing_ranges db_jan_10_20 target).
Proof.
  intro target.
  assert (Hc : canonical_cover (get_cached_ranges db_jan_10_20)).
  { apply separated_canonical. cbn. repeat split.
    apply Z.leb_le. vm_compute. reflexivity. }
  assert (Hp : instant (start target) < instant (end_ target)).
  { apply Z.ltb_lt. vm_compute. reflexivity. }
  split; [exact Hc|]. split; [exact Hp|].
  split; [vm_compute; reflexivity|].
  apply (find_missing_ranges_complement db_jan_10_20 target Hc Hp).
  intros c [<-|[]]. apply Z.leb_le. vm_compute. reflexivity.
Defined.

(** X2. When two intervals overlap, their merge covers the instants of
    the one or the other and no instant more. *)
Theorem merge_covers_the_union (a b : DateRange) :
  overlaps a b = true ->
  exists m, merge a b = Return m
            /\ forall t, covers m t <-> covers a t \/ covers b t.
Proof.
  intro Ho. unfold merge. rewrite Ho. cbn [negb].
  eexists. split; [reflexivity|]. intro t. apply covers_merged. exact Ho.
Qed.

Lemma merge_covers_the_union_witness :
  let a := mkDateRange (jan 1) (jan 5) in
  let b := mkDateRange (jan 4) (jan 10) in
  overlaps a b = true
  /\ exists m, merge a b = Return m
               /\ forall t, covers m t <-> covers a t \/ covers b t.
Proof.
  intros a b.
  assert (Ho : overlaps a b = true) by (vm_compute; reflexivity).
  split; [exact Ho|]. exact (merge_covers_the_union a b Ho).
Defined.

(** *** Adding what is already covered *)

Lemma sorted_starts_head a l :
  Sorted start_le (a :: l) ->
  forall x, In x l -> instant (start a) <= instant (start x).
Proof.
  revert a. induction l as [|b l IH]; intros a Hs x Hin; [destruct Hin|].
  inversion Hs as [|? ? Hs' Hhd]; subst.
  inversion Hhd as [|? ? Hab]; subst. unfold start_le in Hab.
  destruct Hin as [<-|Hin]; [exact Hab|].
  specialize (IH b Hs' x Hin). lia.
Qed.

Lemma sort_appended l : forall x,
  Sorted start_le l ->
  fold_right (insert_sorted (fun a b => dt_le (start a) (start b))) [x] l
  = place x l.
Proof.
  induction l as [|a l IH]; intros x Hs; [reflexivity|].
  cbn [fold_right place].
  inversion Hs as [|? ? Hs' Hhd]; subst. rewrite (IH x Hs').
  destruct l as [|b l'].
  - cbn [place insert_sorted]. unfold dt_le.
    destruct (instant (start a) <=? instant (start x)) eqn:E; reflexivity.
  - inversion Hhd as [|? ? Hab]; subst. unfold start_le in Hab.
    cbn [place]. unfold dt_le.
    destruct (instant (start b) <=? instant (start x)) eqn:Eb.
    + cbn [insert_sorted]. unfold dt_le.
      apply Z.leb_le in Eb.
      assert (E1 : (instant (start a) <=? instant (start b)) = true)
        by (apply Z.leb_le; lia).
      assert (E2 : (instant (start a) <=? instant (start x)) = true)
        by (apply Z.leb_le; lia).
      rewrite E1, E2. reflexivity.
    + cbn [insert_sorted]. unfold dt_le.
      destruct (instant (start a) <=? instant (start x)) eqn:Ea.
      * reflexivity.
      * cbn [insert_sorted]. unfold dt_le.
        assert (E1 : (instant (start a) <=? instant (start b)) = true)
          by (apply Z.leb_le; lia).
        rewrite E1. reflexivity.
Qed.

Lemma separated_sorted l : separated l -> Sorted start_le l.
Proof.
  induction l as [|a l IH]; intro Hs; [constructor|].
  cbn [separated] in Hs. destruct Hs as (Hw & Hn & Hs).
  constructor; [apply IH; exact Hs|].
  destruct l as [|b l]; constructor. unfold start_le, wf_range in *. lia.
Qed.

Lemma scan_separated_same l : forall c, separated (c :: l) -> scan c l = c :: l.
Proof.
  induction l as [|b l IH]; intros c Hs; [reflexivity|].
  cbn [separated] in Hs. destruct Hs as (Hw & Hcb & Hs).
  cbn [scan].
  assert (E : overlaps c b = false) by (apply overlaps_false_iff; lia).
  rewrite E. f_equal. apply IH. exact Hs.
Qed.

Lemma merged_with_part (c x : DateRange) :
  instant (start c) <= instant (start x) ->
  instant (end_ x) <= instant (end_ c) ->
  mkDateRange (dt_min (start c) (start x)) (dt_max (end_ c) (end_ x)) = c.
Proof.
  intros Hs He. unfold dt_min, dt_max, dt_lt, dt_gt.
  assert (E1 : (instant (start x) <? instant (start c)) = false)
    by (apply Z.ltb_ge; lia).
  assert (E2 : (instant (end_ c) <? instant (end_ x)) = false)
    by (apply Z.ltb_ge; lia).
  rewrite E1, E2. destruct c; reflexivity.
Qed.

Lemma scan_place l : forall c x,
  separated (c :: l) -> wf_range x -> within_one x (c :: l) ->
  exists h t, place x (c :: l) = h :: t /\ scan h t = c :: l.
Proof.
  induction l as [|b l IH]; intros c x Hs Hx (J & HJ & HJs & HJe).
  - destruct HJ as [<-|[]]. cbn [place]. unfold dt_le.
    assert (E : (instant (start c) <=? instant (start x)) = true)
      by (apply Z.leb_le; lia).
    rewrite E. exists c, [x]. split; [reflexivity|]. cbn [scan].
    unfold wf_range in Hx.
    assert (Eo : overlaps c x = true) by (apply overlaps_iff; lia).
    rewrite Eo, merged_with_part by lia. reflexivity.
  - pose proof (separated_after c (b :: l) Hs) as Hafter.
    pose proof Hs as Hs0.
    cbn [separated] in Hs. destruct Hs as (Hwc & Hcb & Hs').
    change (separated (b :: l)) in Hs'.
    unfold wf_range in Hwc, Hx.
    assert (Hc_le : instant (start c) <= instant (start x)).
    { destruct HJ as [<-|HJ]; [exact HJs|].
      eapply Forall_forall in Hafter; [|exact HJ]. cbv beta in Hafter. lia. }
    cbn [place]. unfold dt_le at 1.
    assert (E : (instant (start c) <=? instant (start x)) = true)
      by (apply Z.leb_le; lia).
    rewrite E. exists c, (place x (b :: l)). split; [reflexivity|].
    destruct (Z_le_gt_dec (instant (start b)) (instant (start x))) as [Hb|Hb].
    + assert (HJ' : within_one x (b :: l)).
      { exists J. split; [|split; assumption].
        destruct HJ as [<-|HJ]; [lia | exact HJ]. }
      destruct (IH b x Hs' Hx HJ') as (h & t & Ep & Escan).
      rewrite Ep.
      assert (Eh : h = b).
      { cbn [place] in Ep. unfold dt_le in Ep.
        assert (E' : (instant (start b) <=? instant (start x)) = true)
          by (apply Z.leb_le; lia).
        rewrite E' in Ep. injection Ep as <- _. reflexivity. }
      subst h. cbn [scan].
      assert (Eo : overlaps c b = false) by (apply overlaps_false_iff; lia).
      rewrite Eo, Escan. reflexivity.
    + assert (EJ : J = c).
      { destruct HJ as [<-|HJ]; [reflexivity|].
        pose proof (separated_sorted _ Hs') as Hsorted.
        destruct HJ as [<-|HJ]; [lia|].
        pose proof (sorted_starts_head b l Hsorted J HJ). lia. }
      subst J. cbn [place]. unfold dt_le.
      assert (E' : (instant (start b) <=? instant (start x)) = false)
        by (apply Z.leb_gt; lia).
      rewrite E'. cbn [scan].
      assert (Eo : overlaps c x = true) by (apply overlaps_iff; lia).
      rewrite Eo, merged_with_part by lia.
      change (scan c (b :: l) = c :: b :: l).
      apply scan_separated_same. exact Hs0.
Qed.

Lemma merged_ranges_within_one (ranges : list DateRange) (x : DateRange) :
  canonical_cover ranges -> wf_range x -> within_one x ranges ->
  merged_ranges ranges x = Return ranges.
Proof.
  intros Hc Hx Hin.
  pose proof (canonical_separated _ Hc) as Hsep.
  destruct (merged_ranges_scan ranges x) as (r0 & rest & Es & Em).
  rewrite Em. f_equal.
  unfold stable_sort in Es. rewrite fold_right_app in Es. cbn [fold_right] in Es.
  change (insert_sorted (fun a b => dt_le (start a) (start b)) x []) with [x]
    in Es.
  rewrite sort_appended in Es by (apply separated_sorted; exact Hsep).
  destruct ranges as [|c l].
  { destruct Hin as (J & [] & _). }
  destruct (scan_place l c x Hsep Hx Hin) as (h & t & Ep & Escan).
  rewrite Ep in Es. injection Es as <- <-. exact Escan.
Qed.

(** X3. Adding an interval that lies within a stored interval changes
    nothing: [_update_date_ranges] writes back the intervals it read
    (the cover being canonical and the storage not failing). *)
Theorem update_date_ranges_covered_interval
  (w : World) (conn : Database) (new_range : DateRange) :
  canonical_cover (get_cached_ranges (db w)) ->
  wf_range new_range ->
  within_one new_range (get_cached_ranges (db w)) ->
  fault w OpSelectRanges = false ->
  fault w OpDeleteRanges = false ->
  fault w OpInsertRanges = false ->
  _update_date_ranges conn new_range w
  = (Return (mkDatabase (emails conn) (get_cached_ranges (db w))), w).
Proof.
  intros Hc Hx Hin F1 F2 F3.
  unfold _update_date_ranges, bind, sql, lift, ret.
  rewrite F1, (merged_ranges_within_one _ _ Hc Hx Hin), F2, F3. reflexivity.
Qed.

Lemma update_date_ranges_covered_interval_witness :
  let w := world_of db_jan_10_20 None [] in
  let new_range := mkDateRange (jan 12) (jan 15) in
  canonical_cover (get_cached_ranges (db w))
  /\ wf_range new_range
  /\ within_one new_range (get_cached_ranges (db w))
  /\ _update_date_ranges (db w) new_range w = (Return db_jan_10_20, w).
Proof.
  intros w new_range.
  assert (Hc : canonical_cover (get_cached_ranges (db w))).
  { apply separated_canonical. cbn. repeat split.
    apply Z.leb_le. vm_compute. reflexivity. }
  assert (Hx : wf_range new_range) by (apply Z.leb_le; vm_compute; reflexivity).
  assert (Hin : within_one new_range (get_cached_ranges (db w))).
  { exists (mkDateRange (jan 10) (jan 20)). split; [left; reflexivity|].
    split; apply Z.leb_le; vm_compute; reflexivity. }
  split; [exact Hc|]. split; [exact Hx|]. split; [exact Hin|].
  exact (update_date_ranges_covered_interval w (db w) new_range Hc Hx Hin
           eq_refl eq_refl eq_refl).
Defined.

Lemma within_one_trans r m l :
  instant (start m) <= instant (start r) ->
  instant (end_ r) <= instant (end_ m) ->
  within_one m l -> within_one r l.
Proof.
  intros Hs He (J & HJ & HJs & HJe). exists J. split; [exact HJ|]. lia.
Qed.

Lemma within_one_cons r a l : within_one r l -> within_one r (a :: l).
Proof. intros (J & HJ & H). exists J. split; [right; exact HJ | exact H]. Qed.

Lemma within_one_self r l : In r l -> within_one r l.
Proof. intro H. exists r. split; [exact H|]. lia. Qed.

(** Every interval given to the merging loop lies within one interval
    of its result. *)
Lemma scan_within rest : forall current r,
  In r (current :: rest) -> within_one r (scan current rest).
Proof.
  induction rest as [|next rest IH]; intros current r Hin.
  - apply within_one_self. exact Hin.
  - cbn [scan]. destruct (overlaps current next) eqn:E.
    + set (m := mkDateRange (dt_min (start current) (start next))
                            (dt_max (end_ current) (end_ next))).
      assert (Hm : within_one m (scan m rest)) by (apply IH; left; reflexivity).
      destruct Hin as [<-|[<-|Hin]].
      * apply (within_one_trans _ m); [| |exact Hm]; subst m; cbn [start end_];
          rewrite ?instant_dt_min, ?instant_dt_max; lia.
      * apply (within_one_trans _ m); [| |exact Hm]; subst m; cbn [start end_];
          rewrite ?instant_dt_min, ?instant_dt_max; lia.
      * apply IH. right. exact Hin.
    + destruct Hin as [<-|Hin].
      * apply within_one_self. left. reflexivity.
      * apply within_one_cons. apply IH. exact Hin.
Qed.

(** X4. Insert-then-reduce is idempotent: adding to the result of an add
    the interval that was just added returns the same list of
    intervals. *)
Theorem merged_ranges_idempotent
  (ranges : list DateRange) (new_range : DateRange) (merged : list DateRange) :
  Forall wf_range ranges -> wf_range new_range ->
  merged_ranges ranges new_range = Return merged ->
  merged_ranges merged new_range = Return merged.
Proof.
  intros Hwf Hx Em.
  destruct (merged_ranges_canonical ranges new_range Hwf Hx)
    as (merged' & Em' & Hcan & _).
  rewrite Em in Em'. injection Em' as <-.
  apply merged_ranges_within_one; [exact Hcan | exact Hx|].
  destruct (merged_ranges_scan ranges new_range) as (r0 & rest & Es & Escan).
  rewrite Em in Escan. injection Escan as ->.
  apply scan_within. rewrite <- Es.
  eapply Permutation_in; [apply Permutation_sym, stable_sort_perm|].
  apply in_or_app. right. left. reflexivity.
Qed.

Lemma merged_ranges_idempotent_witness :
  let ranges := [mkDateRange (jan 1) (jan 5); mkDateRange (jan 10) (jan 20)] in
  let new_range := mkDateRange (jan 4) (jan 12) in
  Forall wf_range ranges /\ wf_range new_range
  /\ merged_ranges ranges new_range = Return [mkDateRange (jan 1) (jan 20)]
  /\ merged_ranges [mkDateRange (jan 1) (jan 20)] new_range
     = Return [mkDateRange (jan 1) (jan 20)].
Proof.
  intros ranges new_range.
  assert (Hwf : Forall wf_range ranges).
  { repeat constructor; apply Z.leb_le; vm_compute; reflexivity. }
  assert (Hx : wf_range new_range) by (apply Z.leb_le; vm_compute; reflexivity).
  assert (Em : merged_ranges ranges new_range
               = Return [mkDateRange (jan 1) (jan 20)])
    by (vm_compute; reflexivity).
  split; [exact Hwf|]. split; [exact Hx|]. split; [exact Em|].
  exact (merged_ranges_idempotent ranges new_range _ Hwf Hx Em).
Defined.

(* ================================================================= *)
(** ** The retention pass on values that carry the offset of the cutoff *)

Lemma separated_wf l : separated l -> Forall wf_range l.
Proof.
  induction l as [|a l IH]; intro Hs; [constructor|].
  cbn [separated] in Hs. destruct Hs as (Hw & _ & Hs).
  constructor; [exact Hw | apply IH; exact Hs].
Qed.

Lemma trim_leaves_later (cutoff : DateTime) (l : list DateRange) :
  Forall wf_range l ->
  Forall (fun r => instant cutoff < instant (start r)) l ->
  map (raise_start cutoff) (filter (ends_from cutoff) l) = l.
Proof.
  induction l as [|a l IH]; intros Hwf Hall; [reflexivity|].
  inversion Hwf as [|? ? Hwa Hwl]; subst.
  inversion Hall as [|? ? Ha Hl]; subst. unfold wf_range in Hwa.
  cbn [filter]. unfold ends_from at 1, dt_lt.
  assert (E : (instant (end_ a) <? instant cutoff) = false)
    by (apply Z.ltb_ge; lia).
  rewrite E. cbn [negb map]. rewrite (IH Hwl Hl). f_equal.
  unfold raise_start, dt_lt.
  assert (E' : (instant (start a) <? instant cutoff) = false)
    by (apply Z.ltb_ge; lia).
  rewrite E'. reflexivity.
Qed.

Lemma trimmed_cover (cutoff : DateTime) (l : list DateRange) :
  separated l ->
  separated (map (raise_start cutoff) (filter (ends_from cutoff) l))
  /\ forall t,
       covered (map (raise_start cutoff) (filter (ends_from cutoff) l)) t
       <-> covered l t /\ instant cutoff <= t.
Proof.
  induction l as [|c l IH]; intro Hs.
  - split; [exact I|]. intro t. cbn [map filter]. split.
    + intro H. destruct (covered_nil _ H).
    + intros [H _]. exact H.
  - pose proof (separated_after c l Hs) as Hafter.
    cbn [separated] in Hs. destruct Hs as (Hwc & Hn & Hs).
    unfold wf_range in Hwc.
    cbn [filter]. destruct (ends_from cutoff c) eqn:E;
      unfold ends_from, dt_lt in E.
    2:{ apply negb_false_iff, Z.ltb_lt in E. destruct (IH Hs) as [Hsep Hcov].
        split; [exact Hsep|]. intro t. rewrite Hcov, covered_cons.
        unfold covers. split; [tauto|]. intros [[H|H] Ht]; [lia | tauto]. }
    + apply negb_true_iff, Z.ltb_ge in E.
      assert (Hlater : Forall (fun r => instant cutoff < instant (start r)) l).
      { eapply Forall_impl; [|exact Hafter]. cbv beta. intros r Hr. lia. }
      cbn [map].
      rewrite (trim_leaves_later cutoff l (separated_wf _ Hs) Hlater).
      assert (Hc : instant (end_ (raise_start cutoff c)) = instant (end_ c)
                   /\ wf_range (raise_start cutoff c)
                   /\ forall t, covers (raise_start cutoff c) t
                                <-> covers c t /\ instant cutoff <= t).
      { unfold raise_start, dt_lt, wf_range, covers.
        destruct (instant (start c) <? instant cutoff) eqn:Es; cbn [start end_].
        - apply Z.ltb_lt in Es. repeat split; lia.
        - apply Z.ltb_ge in Es. repeat split; lia. }
      destruct Hc as (He & Hw & Hcov). split.
      * cbn [separated]. split; [exact Hw|]. split; [|exact Hs].
        destruct l as [|b l']; [exact I|]. rewrite He. exact Hn.
      * intro t. rewrite !covered_cons, Hcov. split.
        -- intros [[H1 H2]|H]; [tauto|]. split; [tauto|].
           destruct H as (r & Hr & Hcr).
           eapply Forall_forall in Hlater; [|exact Hr].
           unfold covers in Hcr. cbv beta in Hlater. lia.
        -- intros [[H|H] Ht]; [left; tauto | right; exact H].
Qed.

(** X5. Among values that carry the offset of the cutoff, the retention
    pass keeps the coverage table canonical, and what it covers
    afterwards is what it covered before from the cutoff on. *)
Theorem cleanup_old_data_keeps_canonical_cover (days_to_keep : Z) (w : World) :
  let cutoff := add_days (clock w (ticks w)) (- days_to_keep) in
  valid_datetime cutoff ->
  (forall row, In row (emails (db w)) ->
     valid_datetime (date (row_email row))
     /\ utcoffset (date (row_email row)) = utcoffset cutoff) ->
  (forall r, In r (date_ranges (db w)) ->
     valid_datetime (start r) /\ utcoffset (start r) = utcoffset cutoff
     /\ valid_datetime (end_ r) /\ utcoffset (end_ r) = utcoffset cutoff) ->
  canonical_cover (date_ranges (db w)) ->
  fst (cleanup_old_data days_to_keep w) = Return tt
  /\ canonical_cover (date_ranges (db (snd (cleanup_old_data days_to_keep w))))
  /\ forall t,
       covered (date_ranges (db (snd (cleanup_old_data days_to_keep w)))) t
       <-> covered (date_ranges (db w)) t /\ instant cutoff <= t.
Proof.
  intros cutoff Vc Hrows Hranges Hcan.
  destruct (trim_same_offset cutoff (db w) Vc Hrows Hranges) as [_ Er].
  unfold cleanup_old_data, bind, pendulum_now, set_db. cbn [fst snd db].
  fold cutoff. rewrite Er.
  destruct (trimmed_cover cutoff _ (canonical_separated _ Hcan)) as [Hsep Hcov].
  split; [reflexivity|]. split; [apply separated_canonical; exact Hsep|].
  exact Hcov.
Qed.

(** X6. Among values that carry the offset of the cutoff, the retention
    pass deletes exactly the records dated before the cutoff, removes
    the intervals that end before it, raises to the cutoff the start of
    the intervals that start before it, and leaves the others as they
    are. *)
Theorem cleanup_old_data_same_offset (days_to_keep : Z) (w : World) :
  let cutoff := add_days (clock w (ticks w)) (- days_to_keep) in
  valid_datetime cutoff ->
  (forall row, In row (emails (db w)) ->
     valid_datetime (date (row_email row))
     /\ utcoffset (date (row_email row)) = utcoffset cutoff) ->
  (forall r, In r (date_ranges (db w)) ->
     valid_datetime (start r) /\ utcoffset (start r) = utcoffset cutoff
     /\ valid_datetime (end_ r) /\ utcoffset (end_ r) = utcoffset cutoff) ->
  emails (db (snd (cleanup_old_data days_to_keep w)))
  = filter (fun row => negb (dt_lt (date (row_email row)) cutoff))
           (emails (db w))
  /\ date_ranges (db (snd (cleanup_old_data days_to_keep w)))
     = map (raise_start cutoff) (filter (ends_from cutoff) (date_ranges (db w))).
Proof.
  intros cutoff Vc Hrows Hranges.
  destruct (trim_same_offset cutoff (db w) Vc Hrows Hranges) as [Ee Er].
  unfold cleanup_old_data, bind, pendulum_now, set_db. cbn [fst snd db].
  fold cutoff. split; assumption.
Qed.

Ltac solve_valid :=
  unfold valid_datetime, valid_date; repeat split; vm_compute; congruence.

Lemma db_utc_valid :
  let w := world_of db_utc None [] in
  let cutoff := add_days (clock w (ticks w)) (- 148) in
  valid_datetime cutoff
  /\ (forall row, In row (emails (db w)) ->
        valid_datetime (date (row_email row))
        /\ utcoffset (date (row_email row)) = utcoffset cutoff)
  /\ (forall r, In r (date_ranges (db w)) ->
        valid_datetime (start r) /\ utcoffset (start r) = utcoffset cutoff
        /\ valid_datetime (end_ r) /\ utcoffset (end_ r) = utcoffset cutoff).
Proof.
  intros w cutoff. split; [solve_valid|]. split.
  - intros row [<-|[<-|[]]]; (split; [solve_valid | reflexivity]).
  - intros r [<-|[]]. repeat split; solve_valid.
Defined.

Lemma cleanup_old_data_keeps_canonical_cover_witness :
  let w := world_of db_utc None [] in
  canonical_cover (date_ranges (db w))
  /\ canonical_cover (date_ranges (db (snd (cleanup_old_data 148 w))))
  /\ date_ranges (db (snd (cleanup_old_data 148 w)))
     = [mkDateRange (utc 2024 1 5 12 0 0) (jan 10)].
Proof.
  intro w.
  assert (Hc : canonical_cover (date_ranges (db w))).
  { apply separated_canonical. cbn. repeat split.
    apply Z.leb_le. vm_compute. reflexivity. }
  destruct db_utc_valid as (Vc & Hrows & Hranges).
  destruct (cleanup_old_data_keeps_canonical_cover 148 w Vc Hrows Hranges Hc)
    as (_ & Hcan & _).
  split; [exact Hc|]. split; [exact Hcan|]. vm_compute. reflexivity.
Defined.

Lemma cleanup_old_data_same_offset_witness :
  let w := world_of db_utc None [] in
  let cutoff := add_days (clock w (ticks w)) (- 148) in
  valid_datetime cutoff
  /\ emails (db (snd (cleanup_old_data 148 w)))
     = filter (fun row => negb (dt_lt (date (row_email row)) cutoff))
              (emails (db w))
  /\ map (fun row => message_id (row_email row))
         (emails (db (snd (cleanup_old_data 148 w))))
     = ["<new@example.com>"].
Proof.
  intros w cutoff.
  destruct db_utc_valid as (Vc & Hrows & Hranges).
  destruct (cleanup_old_data_same_offset 148 w Vc Hrows Hranges) as [Ee _].
  split; [exact Vc|]. split; [exact Ee|]. vm_compute. reflexivity.
Defined.

(* ================================================================= *)
(** ** Searching records that carry the offset of the window *)


(* ================================================================= *)
(** ** The primary key of [emails] *)

Lemma keys_app l l' : keys (l ++ l') = keys l ++ keys l'.
Proof. apply map_app. Qed.

Lemma keys_upsert_row rows r :
  keys (upsert_row rows r)
  = filter (fun k => negb (String.eqb k (message_id (row_email r)))) (keys rows)
    ++ [message_id (row_email r)].
Proof.
  unfold upsert_row. rewrite keys_app. f_equal.
  unfold keys. induction rows as [|x rows IH]; [reflexivity|].
  cbn [filter map].
  destruct (String.eqb (message_id (row_email x)) (message_id (row_email r)));
    cbn [negb map]; rewrite IH; reflexivity.
Qed.

Lemma NoDup_filter {A} (p : A -> bool) (l : list A) :
  NoDup l -> NoDup (filter p l).
Proof.
  induction 1 as [|x l Hx Hl IH]; cbn [filter]; [constructor|].
  destruct (p x); [|exact IH]. constructor; [|exact IH].
  intro Hin. apply filter_In in Hin. tauto.
Qed.

Lemma upsert_row_NoDup rows r : NoDup (keys rows) -> NoDup (keys (upsert_row rows r)).
Proof.
  intro Hnd. rewrite keys_upsert_row.
  apply NoDup_app.
  - apply NoDup_filter. exact Hnd.
  - repeat constructor. intros [].
  - intros k Hk [<-|[]]. apply filter_In in Hk. destruct Hk as [_ Hk].
    rewrite String.eqb_refl in Hk. discriminate.
Qed.

Lemma executemany_upsert_NoDup new_rows : forall rows,
  NoDup (keys rows) -> NoDup (keys (executemany_upsert rows new_rows)).
Proof.
  unfold executemany_upsert.
  induction new_rows as [|r new_rows IH]; intros rows Hnd; [exact Hnd|].
  cbn [fold_left]. apply IH. apply upsert_row_NoDup. exact Hnd.
Qed.

Lemma upsert_row_keeps rows r x :
  In r rows -> message_id (row_email x) <> message_id (row_email r) ->
  In r (upsert_row rows x).
Proof.
  intros Hin Hne. unfold upsert_row. apply in_or_app. left.
  apply filter_In. split; [exact Hin|].
  apply negb_true_iff. apply String.eqb_neq. congruence.
Qed.

Lemma executemany_upsert_keeps l : forall rows r,
  In r rows -> ~ In (message_id (row_email r)) (keys l) ->
  In r (executemany_upsert rows l).
Proof.
  unfold executemany_upsert.
  induction l as [|x l IH]; intros rows r Hin Hnot; [exact Hin|].
  cbn [fold_left]. apply IH.
  - apply upsert_row_keeps; [exact Hin|]. intro E. apply Hnot. left. exact E.
  - intro H. apply Hnot. right. exact H.
Qed.

(** The last row written for a key is in the table. *)
Lemma executemany_upsert_last rows l1 r l2 :
  ~ In (message_id (row_email r)) (keys l2) ->
  In r (executemany_upsert rows (l1 ++ r :: l2)).
Proof.
  intro Hnot. unfold executemany_upsert.
  rewrite fold_left_app. cbn [fold_left].
  apply (executemany_upsert_keeps l2); [|exact Hnot].
  unfold upsert_row. apply in_or_app. right. left. reflexivity.
Qed.

(** What [store_emails] leaves in the file: the upserted rows with the
    merged coverage when it returns, what was there when it raises or
    has nothing to store. *)
Lemma store_emails_db (emails_ : list EmailMetadata) (date_range : DateRange)
  (w : World) :
  (emails_ <> []
   /\ fst (store_emails emails_ date_range w) = Return tt
   /\ exists merged, db (snd (store_emails emails_ date_range w))
                     = stored emails_ merged w)
  \/ (db (snd (store_emails emails_ date_range w)) = db w
      /\ (emails_ <> [] ->
          fst (store_emails emails_ date_range w) <> Return tt)).
Proof.
  destruct emails_ as [|e0 emails_].
  { right. split; [reflexivity|]. intro H. destruct (H eq_refl). }
  unfold store_emails. cbn [truthy truthy_list negb].
  unfold _update_date_ranges, commit, rollback.
  unfold try_except, bind, sql, pendulum_now, set_db, raise, ret, lift.
  cbn [fault db].
  destruct (fault w OpBegin); cbn [fst snd db fault];
    [right; split; [reflexivity | discriminate]|].
  destruct (fault w OpUpsert); cbn [fst snd db fault];
    [right; split; [reflexivity | discriminate]|].
  destruct (fault w OpSelectRanges); cbn [fst snd db fault];
    [right; split; [reflexivity | discriminate]|].
  destruct (merged_ranges (get_cached_ranges (db w)) date_range) as [merged|err];
    cbn [fst snd db fault]; [|right; split; [reflexivity | discriminate]].
  destruct (fault w OpDeleteRanges); cbn [fst snd db fault];
    [right; split; [reflexivity | discriminate]|].
  destruct (fault w OpInsertRanges); cbn [fst snd db fault];
    [right; split; [reflexivity | discriminate]|].
  destruct (fault w OpCommit); cbn [fst snd db fault];
    [right; split; [reflexivity | discriminate]|].
  left. split; [discriminate|]. split; [reflexivity|].
  exists merged. reflexivity.
Qed.

(** X8. [store_emails] keeps [message_id] a key of the emails table:
    whatever the batch holds (the same message twice, messages already
    cached) and whether or not the transaction commits, no two rows
    share a message_id afterwards if none did before. *)
Theorem store_emails_keeps_primary_key
  (emails_ : list EmailMetadata) (date_range : DateRange) (w : World) :
  NoDup (keys (emails (db w))) ->
  NoDup (keys (emails (db (snd (store_emails emails_ date_range w))))).
Proof.
  intro Hnd.
  destruct (store_emails_db emails_ date_range w)
    as [(_ & _ & merged & E)|[E _]]; rewrite E; [|exact Hnd].
  unfold stored. cbn [emails]. apply executemany_upsert_NoDup. exact Hnd.
Qed.

Lemma store_emails_keeps_primary_key_witness :
  let w := world_of db_utc None [] in
  let batch := [mail_at "<new@example.com>" (jan 8);
                mail_at "<new@example.com>" (jan 9)] in
  NoDup (keys (emails (db w)))
  /\ NoDup (keys (emails (db (snd (store_emails batch year_2024 w)))))
  /\ keys (emails (db (snd (store_emails batch year_2024 w))))
     = ["<old@example.com>"; "<new@example.com>"].
Proof.
  intros w batch.
  assert (Hnd : NoDup (keys (emails (db w)))).
  { repeat constructor; cbn; intuition discriminate. }
  split; [exact Hnd|].
  split; [exact (store_emails_keeps_primary_key batch year_2024 w Hnd)|].
  vm_compute. reflexivity.
Defined.

Lemma found_once `{Runtime} (m : EmailRow -> bool) (rows : list EmailRow)
  (r : EmailRow) :
  NoDup (keys rows) -> In r rows -> m r = true ->
  filter (fun x => String.eqb (message_id x) (message_id (row_email r)))
         (map row_email (filter m rows))
  = [row_email r].
Proof.
  induction rows as [|x rows IH]; intros Hnd Hin Hm; [destruct Hin|].
  cbn [keys map] in Hnd. inversion Hnd as [|? ? Hx Hnd']; subst.
  destruct Hin as [->|Hin].
  - cbn [filter]. rewrite Hm. cbn [map filter]. rewrite String.eqb_refl.
    f_equal.
    assert (Hnone : forall l,
              (forall y, In y l -> message_id (row_email y)
                                   <> message_id (row_email r)) ->
              filter (fun x => String.eqb (message_id x)
                                          (message_id (row_email r)))
                     (map row_email (filter m l)) = []).
    { induction l as [|y l IHl]; intro Hl; [reflexivity|].
      cbn [filter]. destruct (m y); cbn [map filter].
      - assert (E : String.eqb (message_id (row_email y))
                               (message_id (row_email r)) = false).
        { apply String.eqb_neq. apply Hl. left. reflexivity. }
        rewrite E. apply IHl. intros z Hz. apply Hl. right. exact Hz.
      - apply IHl. intros z Hz. apply Hl. right. exact Hz. }
    apply Hnone. intros y Hy E. apply Hx. rewrite <- E.
    apply in_map with (f := fun r => message_id (row_email r)). exact Hy.
  - assert (Hne : String.eqb (message_id (row_email x))
                             (message_id (row_email r)) = false).
    { apply String.eqb_neq. intro E. apply Hx. rewrite E.
      apply in_map with (f := fun r => message_id (row_email r)). exact Hin. }
    cbn [filter]. destruct (m x); cbn [map filter]; rewrite ?Hne;
      apply IH; assumption.
Qed.



(* ================================================================= *)
(** ** The connection and the batches of [fetch_emails] *)

Lemma quiet_refl w : quiet w w.
Proof. repeat split. Qed.

Lemma quiet_trans w1 w2 w3 : quiet w1 w2 -> quiet w2 w3 -> quiet w1 w3.
Proof.
  unfold quiet. intros (A1 & A2 & A3 & A4 & A5 & A6) (B1 & B2 & B3 & B4 & B5 & B6).
  repeat split; congruence.
Qed.

Lemma only_ticks_quiet w w' : only_ticks w w' -> quiet w w'.
Proof. intros [n ->]. repeat split. Qed.

Lemma send_quiet ev w : quiet w (snd (send ev w)).
Proof. repeat split. Qed.

Section FetchEffects.
Context `{Runtime}.

Lemma process_item_quiet item emails_ w :
  quiet w (snd (process_item item emails_ w)).
Proof.
  unfold process_item. destruct (negb (truthy item)); [apply quiet_refl|].
  unfold bind, lift, ret.
  destruct (literal_of item) as [header|err]; [|apply quiet_refl].
  destruct (parse_metadata_spec header w) as (r & w' & E & Ht & _).
  rewrite E. cbn [snd]. apply only_ticks_quiet. exact Ht.
Qed.

Lemma process_header_data_quiet header_data : forall emails_ w,
  quiet w (snd (process_header_data header_data emails_ w)).
Proof.
  induction header_data as [|x|x y l IH] using pair_induction; intros emails_ w.
  - apply quiet_refl.
  - cbn [process_header_data]. unfold bind.
    pose proof (process_item_quiet x emails_ w) as Hq.
    destruct (process_item x emails_ w) as [[l1|err] w1]; exact Hq.
  - cbn [process_header_data]. unfold bind.
    pose proof (process_item_quiet x emails_ w) as Hq.
    destruct (process_item x emails_ w) as [[l1|err] w1]; cbn [snd] in Hq.
    + eapply quiet_trans; [exact Hq | apply IH].
    + exact Hq.
Qed.

Lemma fetch_batches_quiet conn bs : forall emails_ w,
  quiet w (snd (fetch_batches conn bs emails_ w)).
Proof.
  induction bs as [|batch bs IH]; intros emails_ w; [apply quiet_refl|].
  cbn [fetch_batches]. unfold bind, lift.
  pose proof (send_quiet (NetFetch (String.concat "," batch)) w) as Hs.
  destruct (send (NetFetch (String.concat "," batch)) w) as [[u|err] w1] eqn:Es;
    [|discriminate Es].
  cbn [snd] in Hs.
  destruct (imap_fetch conn (String.concat "," batch)) as [hd|err]; [|exact Hs].
  pose proof (process_header_data_quiet hd emails_ w1) as Hp.
  destruct (process_header_data hd emails_ w1) as [[l1|err] w2]; cbn [snd] in Hp.
  - eapply quiet_trans; [exact Hs|]. eapply quiet_trans; [exact Hp | apply IH].
  - eapply quiet_trans; eassumption.
Qed.

(** X10. [fetch_emails] gives its connection back whatever happens.
    Without a pooled connection and without a server it raises
    RuntimeError and touches nothing; otherwise, whether the fetch
    returns or the search or a batch raises, the connection it used is
    put at the back of the pool, the rest of the pool is as it was, and
    the cache is not written. *)
Theorem fetch_emails_releases_connection (date_range : DateRange) (w : World) :
  (connection_pool w = [] -> server w = None ->
   fetch_emails date_range w
   = (Raise (RuntimeError "Could not establish IMAP connection"), w))
  /\ (forall conn,
        fst (_get_connection w) = Return (Some conn) ->
        connection_pool (snd (fetch_emails date_range w))
        = tl (connection_pool w) ++ [conn]
        /\ db (snd (fetch_emails date_range w)) = db w).
Proof.
  split.
  - intros Hp Hs. unfold fetch_emails, bind, _get_connection.
    rewrite Hp, Hs. reflexivity.
  - intros conn Hc. unfold fetch_emails, bind.
    assert (Hg : exists w1, _get_connection w = (Return (Some conn), w1)
                            /\ db w1 = db w
                            /\ connection_pool w1 = tl (connection_pool w)).
    { unfold _get_connection in *.
      destruct (connection_pool w) as [|c rest] eqn:Ep.
      - cbn [fst] in Hc. injection Hc as Hc. rewrite Hc.
        exists w. repeat split. exact Ep.
      - unfold bind, set_pool, ret in *. cbn [fst] in Hc. injection Hc as ->.
        eexists. repeat split. }
    destruct Hg as (w1 & Eg & Hdb & Hpool). rewrite Eg.
    unfold try_finally, bind, lift.
    pose proof (send_quiet (NetSearch (day_of (start date_range))
                              (day_of (add_days (end_ date_range) 1))) w1) as Hs.
    destruct (send _ w1) as [[u|err] w2] eqn:Es; [|discriminate Es].
    cbn [snd] in Hs.
    assert (Hbody : forall (r : outcome (list EmailMetadata)) w3,
              quiet w1 w3 ->
              connection_pool
                (snd (let (r0, w') := (r, w3) in
                      match _release_connection conn w' with
                      | (Return _, w'') => (r0, w'')
                      | (Raise e, w'') => (Raise e, w'')
                      end))
              = tl (connection_pool w) ++ [conn]
              /\ db (snd (let (r0, w') := (r, w3) in
                          match _release_connection conn w' with
                          | (Return _, w'') => (r0, w'')
                          | (Raise e, w'') => (Raise e, w'')
                          end)) = db w).
    { intros r w3 (Q1 & Q2 & _). unfold _release_connection, set_pool.
      cbn [snd connection_pool db]. rewrite Q2, Hpool, Q1, Hdb. split; reflexivity. }
    destruct (imap_search conn _ _) as [message_numbers|err].
    + destruct (negb (truthy message_numbers)).
      * apply Hbody. exact Hs.
      * pose proof (fetch_batches_quiet conn (batches message_numbers) [] w2)
          as Hq.
        destruct (fetch_batches conn (batches message_numbers) [] w2)
          as [r w3]. cbn [snd] in Hq.
        apply Hbody. eapply quiet_trans; eassumption.
    + apply Hbody. exact Hs.
Qed.

End FetchEffects.

Lemma fetch_emails_releases_connection_witness :
  let w := world_with_pool db_utc [broken_server; one_message_server] in
  fst (_get_connection w) = Return (Some broken_server)
  /\ fst (fetch_emails year_2024 w) = Raise IMAPError
  /\ connection_pool (snd (fetch_emails year_2024 w))
     = [one_message_server; broken_server]
  /\ db (snd (fetch_emails year_2024 w)) = db w.
Proof.
  intro w.
  assert (Hc : fst (_get_connection w) = Return (Some broken_server))
    by reflexivity.
  destruct (fetch_emails_releases_connection (H := plain_runtime) year_2024 w)
    as [_ Hrel].
  destruct (Hrel broken_server Hc) as [Hp Hd].
  split; [exact Hc|]. split; [vm_compute; reflexivity|].
  split; [exact Hp | exact Hd].
Defined.

(** *** Batches *)

Lemma batches_from_partition {A} (fuel : nat) : forall (l : list A),
  (List.length l <= fuel)%nat ->
  List.concat (batches_from fuel l) = l
  /\ Forall (fun b => b <> [] /\ (List.length b <= batch_size)%nat)
            (batches_from fuel l).
Proof.
  induction fuel as [|fuel IH]; intros l Hl.
  - destruct l; [|cbn in Hl; lia]. split; [reflexivity | constructor].
  - destruct l as [|x l]; [split; [reflexivity | constructor]|].
    cbn [batches_from List.concat].
    destruct (IH (skipn batch_size (x :: l))) as [Ec Hall].
    { rewrite length_skipn. cbn [List.length] in Hl |- *.
      unfold batch_size. lia. }
    split.
    + rewrite Ec. apply firstn_skipn.
    + constructor; [|exact Hall]. split.
      * unfold batch_size. cbn [firstn]. discriminate.
      * rewrite length_firstn. lia.
Qed.

(** X11. The batches of [fetch_emails] partition the message numbers:
    put end to end they are the list the search returned, in order, none
    is empty and none holds more than 100 numbers. *)
Theorem batches_partition {A} (message_numbers : list A) :
  List.concat (batches message_numbers) = message_numbers
  /\ Forall (fun b => b <> [] /\ (List.length b <= 100)%nat)
            (batches message_numbers).
Proof. apply batches_from_partition. apply Nat.le_refl. Qed.

Section FetchRequests.
Context `{Runtime}.

Lemma only_ticks_net_log w w' : only_ticks w w' -> net_log w' = net_log w.
Proof. intros [n ->]. reflexivity. Qed.

Lemma fetch_batches_requests (conn : IMAP4) (bs : list (list string)) :
  forall emails_ w,
    (forall batch, In batch bs ->
       exists header_data,
         imap_fetch conn (String.concat "," batch) = Return header_data
         /\ paired header_data) ->
    net_log (snd (fetch_batches conn bs emails_ w))
    = net_log w ++ fetch_requests bs.
Proof.
  induction bs as [|batch bs IH]; intros emails_ w Hok.
  - cbn. rewrite app_nil_r. reflexivity.
  - destruct (Hok batch (or_introl eq_refl)) as (hd & Ef & Hp).
    cbn [fetch_batches fetch_requests map]. unfold bind, send, lift. rewrite Ef.
    match goal with
    | |- context [process_header_data hd emails_ ?w1] =>
        destruct (process_header_data_paired hd emails_ w1 Hp)
          as (l1 & w2 & E1 & Ht & _)
    end.
    rewrite E1, IH by (intros b Hb; apply Hok; right; exact Hb).
    apply only_ticks_net_log in Ht. rewrite Ht. cbn [net_log].
    rewrite <- app_assoc. reflexivity.
Qed.


End FetchRequests.


(* ================================================================= *)
(** ** The search service *)

Section Service.
Context `{Runtime}.

Lemma fetch_and_store_returns (fetch_ranges : list DateRange) :
  forall w, fst (fetch_and_store fetch_ranges w) = Return tt.
Proof.
  induction fetch_ranges as [|r rest IH]; intro w; [reflexivity|].
  cbn [fetch_and_store]. unfold bind, try_except, ret.
  destruct (fetch_emails r w) as [[emails_|err] w1].
  - destruct (truthy emails_).
    + destruct (store_emails emails_ r w1) as [[[]|err] w2]; apply IH.
    + apply IH.
  - apply IH.
Qed.

(** [search], with its steps laid out. *)
Lemma search_steps (pattern : string) (days_back : option Z) (w : World) :
  let w1 := snd (pendulum_now w) in
  let target := target_of days_back (clock w (ticks w)) in
  let missing := find_missing_ranges (db w) target in
  let w2 := snd ((if truthy missing then fetch_and_store missing else ret tt) w1) in
  search pattern days_back w
  = (match search_emails (db w2) pattern (Some target) with
     | Return results => Return (newest_first results)
     | Raise e => Raise e
     end, w2).
Proof.
  intros w1 target missing w2. subst w2 missing target w1.
  unfold search, bind, pendulum_now, get_db, lift, ret, target_of.
  cbn [fst snd db].
  match goal with
  | |- context [(if truthy ?m then fetch_and_store ?m else ?f) ?w1] =>
      assert (Hret : fst ((if truthy m then fetch_and_store m else f) w1)
                     = Return tt)
        by (destruct (truthy m); [apply fetch_and_store_returns | reflexivity]);
      destruct ((if truthy m then fetch_and_store m else f) w1) as [[u|err] w2]
  end; cbn [fst snd] in Hret |- *; [|discriminate].
  match goal with
  | |- context [search_emails ?d ?p ?t] => destruct (search_emails d p t)
  end; reflexivity.
Qed.


(** X14. When the window asked for is covered, [search] goes to the
    cache alone: it sends nothing to the server, takes no connection
    and leaves the cache as it is. *)
Theorem search_of_a_covered_window
  (pattern : string) (days_back : option Z) (w : World) :
  find_missing_ranges (db w) (target_of days_back (clock w (ticks w))) = [] ->
  quiet w (snd (search pattern days_back w))
  /\ net_log (snd (search pattern days_back w)) = net_log w
  /\ fst (search pattern days_back w)
     = match search_emails (db w) pattern
                           (Some (target_of days_back (clock w (ticks w)))) with
       | Return results => Return (newest_first results)
       | Raise e => Raise e
       end.
Proof.
  intro Hm. rewrite search_steps. rewrite Hm.
  cbn [truthy truthy_list]. unfold ret, pendulum_now. cbn [fst snd db].
  repeat split.
Qed.

(** X15. What [search] returns is what the cache query returns for the
    window, newest first. *)
Theorem search_results_newest_first
  (pattern : string) (days_back : option Z) (w : World)
  (found : list EmailMetadata) :
  fst (search pattern days_back w) = Return found ->
  Sorted not_older found
  /\ exists results,
       search_emails (db (snd (search pattern days_back w))) pattern
                     (Some (target_of days_back (clock w (ticks w))))
       = Return results
       /\ Permutation found results.
Proof.
  rewrite search_steps. cbn [fst snd]. intro E.
  destruct (search_emails _ pattern _) as [results|err]; [|discriminate].
  injection E as <-. split.
  - apply stable_sort_Sorted; intros a b Hab; unfold not_older.
    + apply dt_ge_iff in Hab. exact Hab.
    + unfold dt_ge in Hab. apply Z.leb_gt in Hab. lia.
  - exists results. split; [reflexivity|]. apply stable_sort_perm.
Qed.

End Service.


Lemma search_of_a_covered_window_witness :
  let w := world_offline db_covered in
  find_missing_ranges (db w) (target_of (Some 30) (clock w (ticks w))) = []
  /\ net_log (snd (search "alice" (Some 30) w)) = []
  /\ connection_pool (snd (search "alice" (Some 30) w)) = [broken_server].
Proof.
  intro w.
  assert (Hm : find_missing_ranges (db w)
                 (target_of (Some 30) (clock w (ticks w))) = [])
    by (vm_compute; reflexivity).
  destruct (search_of_a_covered_window (H := plain_runtime) "alice" (Some 30)
              w Hm) as ((_ & Hp & _) & Hl & _).
  split; [exact Hm|]. split; [exact Hl | exact Hp].
Defined.

Lemma search_results_newest_first_witness :
  let w := world_offline db_covered in
  let found := [mail_at "<new@example.com>" (jan 7);
                mail_at "<old@example.com>" (jan 3)] in
  fst (search "alice" None w) = Return found
  /\ Sorted not_older found.
Proof.
  intros w found.
  assert (E : fst (search "alice" None w) = Return found)
    by (vm_compute; reflexivity).
  split; [exact E|].
  exact (proj1 (search_results_newest_first (H := plain_runtime)
                  "alice" None w found E)).
Defined.

Section ServiceEdges.
Context `{Runtime}.

(** X16. On a pattern that does not compile the cache query does not
    fail by itself: over an empty emails table it returns no record and
    raises nothing; over a table with rows, asked without a window, it
    raises the OperationalError of the failed REGEXP function. *)
Theorem search_emails_with_invalid_pattern (self : Database) (pattern : string) :
  re_compile pattern = None ->
  (forall date_range,
     emails self = [] -> search_emails self pattern date_range = Return [])
  /\ (emails self <> [] ->
      search_emails self pattern None
      = Raise (OperationalError "user-defined function raised exception")).
Proof.
  intro Ec. split.
  - intros date_range E. unfold search_emails. rewrite E. reflexivity.
  - intro Hne. unfold search_emails.
    destruct (emails self) as [|r rows]; [contradiction|].
    cbn [select_where]. unfold where_clause, REGEXP, re_search. rewrite Ec.
    reflexivity.
Qed.

Lemma fetch_emails_silent (date_range : DateRange) (w : World) :
  silent w ->
  (fetch_emails date_range w
   = (Raise (RuntimeError "Could not establish IMAP connection"), w)
   \/ exists w', fetch_emails date_range w = (Return [], w')
                 /\ db w' = db w /\ silent w').
Proof.
  intros [Hpool Hsrv]. unfold fetch_emails, bind, _get_connection.
  destruct (connection_pool w) as [|c rest] eqn:Ep.
  - destruct (server w) as [conn|] eqn:Es; [|left; reflexivity].
    right. unfold try_finally, bind, send, lift.
    rewrite (Hsrv conn eq_refl). cbn [truthy truthy_list negb].
    unfold ret, _release_connection, set_pool. cbn [connection_pool].
    eexists. split; [reflexivity|]. split; [reflexivity|].
    unfold silent. cbn [connection_pool server]. rewrite Ep. split.
    + intros conn' [<-|[]]. apply Hsrv. reflexivity.
    + intros conn' E. apply Hsrv. congruence.
  - right. unfold bind, set_pool, ret, try_finally, send, lift.
    rewrite (Hpool c (or_introl eq_refl)). cbn [truthy truthy_list negb].
    unfold _release_connection, set_pool. cbn [connection_pool].
    eexists. split; [reflexivity|]. split; [reflexivity|].
    unfold silent. cbn [connection_pool server]. split.
    + intros conn' Hin. apply in_app_or in Hin.
      destruct Hin as [Hin|[<-|[]]]; apply Hpool; [right; exact Hin|].
      left. reflexivity.
    + exact Hsrv.
Qed.

Lemma fetch_and_store_silent (fetch_ranges : list DateRange) :
  forall w, silent w -> db (snd (fetch_and_store fetch_ranges w)) = db w.
Proof.
  induction fetch_ranges as [|r rest IH]; intros w Hs; [reflexivity|].
  cbn [fetch_and_store]. unfold bind, try_except.
  destruct (fetch_emails_silent r w Hs) as [E|(w' & E & Hdb & Hs')]; rewrite E.
  - unfold ret. rewrite (IH w Hs). reflexivity.
  - cbn [truthy truthy_list]. unfold ret. rewrite (IH w' Hs'). exact Hdb.
Qed.

(** X17. A gap in which the server finds no message is not recorded as
    covered: when every connection the client can get answers its
    searches with no message, [search] leaves the emails table and the
    coverage table as they were, so that the same gaps are asked for
    again by the next search. *)
Theorem search_of_an_empty_mailbox
  (pattern : string) (days_back : option Z) (w : World) :
  silent w ->
  db (snd (search pattern days_back w)) = db w.
Proof.
  intro Hs. rewrite search_steps. cbn [snd].
  assert (Hs1 : silent (snd (pendulum_now w))) by exact Hs.
  destruct (truthy (find_missing_ranges (db w)
                      (target_of days_back (clock w (ticks w))))).
  - rewrite (fetch_and_store_silent _ _ Hs1). reflexivity.
  - reflexivity.
Qed.

End ServiceEdges.

Lemma search_emails_with_invalid_pattern_witness :
  re_compile "(" = None
  /\ search_emails empty_db "(" (Some year_2024) = Return []
  /\ search_emails db_utc "(" None
     = Raise (OperationalError "user-defined function raised exception").
Proof.
  assert (Ec : re_compile "(" = None) by reflexivity.
  destruct (search_emails_with_invalid_pattern (H := plain_runtime)
              empty_db "(" Ec) as [He _].
  destruct (search_emails_with_invalid_pattern (H := plain_runtime)
              db_utc "(" Ec) as [_ Hn].
  split; [exact Ec|]. split.
  - apply He. reflexivity.
  - apply Hn. discriminate.
Defined.

Lemma search_of_an_empty_mailbox_witness :
  let w := world_of db_jan_1_5 (Some empty_server) [] in
  silent w
  /\ db (snd (search "alice" None w)) = db w
  /\ List.length (net_log (snd (search "alice" None w))) = 2%nat.
Proof.
  intro w.
  assert (Hs : silent w).
  { split.
    - intros conn [].
    - intros conn E since before. injection E as <-. reflexivity. }
  split; [exact Hs|].
  split; [exact (search_of_an_empty_mailbox (H := plain_runtime)
                   "alice" None w Hs)|].
  vm_compute. reflexivity.
Defined.

(* ================================================================= *)
(** ** The prompt and the search loop *)

Section Prompt.
Context `{Runtime}.

Lemma read_pattern_outcome (lines : list string) :
  forall r rest,
    read_pattern lines = (r, rest) ->
    match r with
    | Return (Some p) =>
        re_compile p <> None /\ String.eqb (lower p) "exit" = false
    | Return None => True
    | Raise e => e = EOFError
    end.
Proof.
  induction lines as [|line lines IH]; intros r rest E; cbn [read_pattern] in E.
  - injection E as <- _. reflexivity.
  - destruct (String.eqb (lower line) "exit") eqn:Ex.
    + injection E as <- _. exact I.
    + destruct (re_compile line) as [rx|] eqn:Ec.
      * injection E as <- _. rewrite Ec. split; [discriminate | exact Ex].
      * eapply IH. exact E.
Qed.

Lemma set_stdin_quiet_but_input lines w :
  db (snd (set_stdin lines w)) = db w
  /\ net_log (snd (set_stdin lines w)) = net_log w
  /\ connection_pool (snd (set_stdin lines w)) = connection_pool w.
Proof. repeat split. Qed.


Lemma get_search_parameters_exit (w w1 : World) (days : option Z) :
  get_search_parameters w = (Return (None, days), w1) ->
  exists rest, read_pattern (stdin w) = (Return None, rest).
Proof.
  unfold get_search_parameters, bind.
  destruct (read_pattern (stdin w)) as [r rest] eqn:Er.
  unfold set_stdin, lift. cbn [fst snd].
  destruct r as [[p|]|e]; [|intros _; exists rest; reflexivity|discriminate].
  unfold input. cbn [stdin]. destruct rest as [|line rest']; [discriminate|].
  cbn [fst snd]. destruct (truthy (strip line)); unfold ret.
  - destruct (py_int (strip line)) as [d|]; [destruct (d <? 1)|]; discriminate.
  - discriminate.
Qed.


End Prompt.



(* ================================================================= *)
(** ** A covered target *)

Lemma gaps_from_covered (target : DateRange) (cached : list DateRange) :
  forall current,
    separated cached ->
    within_one target cached ->
    instant (start target) <= instant current ->
    (forall c, In c cached -> instant (start c) <= instant (end_ target)) ->
    gaps_from current cached target = [].
Proof.
  induction cached as [|c cached IH];
    intros current Hsep (J & HJ & HJs & HJe) Hcur Hstarts.
  - destruct HJ.
  - pose proof (separated_after c cached Hsep) as Hafter.
    cbn [separated] in Hsep. destruct Hsep as (Hwc & _ & Hsep).
    unfold wf_range in Hwc. cbn [gaps_from].
    destruct HJ as [<-|HJ].
    + assert (E : dt_lt current (start c) = false).
      { unfold dt_lt. apply Z.ltb_ge. lia. }
      rewrite E. cbn [app]. apply gaps_from_nothing.
      * rewrite instant_dt_max. lia.
      * intros c' Hc'. rewrite instant_dt_max.
        specialize (Hstarts c' (or_intror Hc')). lia.
    + assert (Hlt : instant (end_ c) < instant (start J)).
      { eapply Forall_forall in Hafter; [|exact HJ]. exact Hafter. }
      assert (E : dt_lt current (start c) = false).
      { unfold dt_lt. apply Z.ltb_ge. lia. }
      rewrite E. cbn [app]. apply IH.
      * exact Hsep.
      * exists J. repeat split; assumption.
      * rewrite instant_dt_max. lia.
      * intros c' Hc'. apply Hstarts. right. exact Hc'.
Qed.

(** X20. A target that lies within one cached interval has no gap, as
    long as no cached interval starts after its end. *)
Theorem find_missing_ranges_of_a_covered_target
  (self : Database) (target : DateRange) :
  canonical_cover (get_cached_ranges self) ->
  within_one target (get_cached_ranges self) ->
  (forall c, In c (get_cached_ranges self) ->
             instant (start c) <= instant (end_ target)) ->
  find_missing_ranges self target = [].
Proof.
  intros Hcan Hin Hstarts. rewrite find_missing_ranges_gaps_from.
  destruct (get_cached_ranges self) as [|c cached] eqn:E.
  - destruct Hin as (J & [] & _).
  - apply gaps_from_covered; try assumption.
    + apply canonical_separated. exact Hcan.
    + lia.
Qed.

Lemma find_missing_ranges_of_a_covered_target_witness :
  let target := mkDateRange (jan 12) (jan 15) in
  canonical_cover (get_cached_ranges db_jan_10_20)
  /\ within_one target (get_cached_ranges db_jan_10_20)
  /\ find_missing_ranges db_jan_10_20 target = [].
Proof.
  intro target.
  assert (Hc : canonical_cover (get_cached_ranges db_jan_10_20)).
  { apply separated_canonical. cbn. repeat split.
    apply Z.leb_le. vm_compute. reflexivity. }
  assert (Hin : within_one target (get_cached_ranges db_jan_10_20)).
  { exists (mkDateRange (jan 10) (jan 20)). split; [left; reflexivity|].
    split; apply Z.leb_le; vm_compute; reflexivity. }
  split; [exact Hc|]. split; [exact Hin|].
  apply (find_missing_ranges_of_a_covered_target db_jan_10_20 target Hc Hin).
  intros c [<-|[]]. apply Z.leb_le. vm_compute. reflexivity.
Defined.
